(** * Event binding of the EVM relay: filter lifecycle and latest-value reads

    A shallow embedding of [core/services/relay/evm/event_binding.go]:
    the error values the binding produces, the comparison and narrowing of
    candidate logs, the [Register] / [Unregister] / [Bind] life cycle against
    the log poller, and [GetLatestValue] with its two paths. *)

From Stdlib Require Import ZArith String Ascii List Lia.
From Stdlib.Strings Require Import Byte.
From stdpp Require Import gmap strings list pretty sorting.

Local Open Scope string_scope.
Local Open Scope list_scope.

(** ** Bytes, hashes and addresses *)

#[global] Instance byte_eq_dec : EqDecision Byte.byte := Byte.byte_eq_dec.

(** [common.Hash] is [[32]byte], [common.Address] is [[20]byte]; a topic of a
    stored log is a [[]byte].  All three are byte sequences here.  A hash
    sliced with [rfai[:]] is never the nil slice and a nil topic has length 0,
    so [reflect.DeepEqual] on the two coincides with equality of the byte
    sequences whenever the hash has its 32 bytes. *)
Abbreviation bytes := (list Byte.byte) (only parsing).
Abbreviation Hash := bytes (only parsing).
Abbreviation Address := bytes (only parsing).

(** ** Errors *)

(** The sentinel errors of [commontypes], arbitrary error values coming from
    collaborators, and the two shapes of [fmt.Errorf] the file uses. *)
Inductive error : Type :=
  | ErrInvalidType
  | ErrNotFound
  | ErrInternal
  | ErrorNew (msg : string)
  | ErrorfW (e : error) (text : string)      (* fmt.Errorf("%w: text", e) *)
  | ErrorfWW (e1 e2 : error).                (* fmt.Errorf("%w: %w", e1, e2) *)

#[global] Instance error_eq_dec : EqDecision error.
Proof. solve_decision. Defined.

(** [Unwrap]: the errors an error value wraps directly. *)
Definition Unwrap (e : error) : list error :=
  match e with
  | ErrorfW e1 _ => [e1]
  | ErrorfWW e1 e2 => [e1; e2]
  | _ => []
  end.

(** [errors.Is]: depth-first search of the wrapping tree.  An error value is
    identified with its structure; the statements below ask only for a
    sentinel or for the very error that was wrapped. *)
Fixpoint Is (err target : error) : bool :=
  bool_decide (err = target) ||
  match err with
  | ErrorfW e1 _ => Is e1 target
  | ErrorfWW e1 e2 => Is e1 target || Is e2 target
  | _ => false
  end.

(** [strings.HasPrefix] and [strings.Contains] on byte strings. *)
Fixpoint HasPrefix (s p : string) {struct p} : bool :=
  match p, s with
  | EmptyString, _ => true
  | String c p', String d s' => bool_decide (c = d) && HasPrefix s' p'
  | String _ _, EmptyString => false
  end.

Fixpoint Contains (s substr : string) : bool :=
  HasPrefix s substr ||
  match s with
  | EmptyString => false
  | String _ s' => Contains s' substr
  end.

(** The message texts of the three sentinels are constants of
    [chainlink-common]; they are taken as given. *)
Class SentinelTexts : Type := sentinelText : error -> string.

Section ErrorText.

Context {texts : SentinelTexts}.

(** [err.Error()] *)
Fixpoint Error_ (e : error) : string :=
  match e with
  | ErrInvalidType | ErrNotFound | ErrInternal => sentinelText e
  | ErrorNew msg => msg
  | ErrorfW e1 text => Error_ e1 +:+ ": " +:+ text
  | ErrorfWW e1 e2 => Error_ e1 +:+ ": " +:+ Error_ e2
  end.

Definition wrapInternalErr (err : option error) : option error :=
  match err with
  | None => None
  | Some e =>
      let errStr := Error_ e in
      if Contains errStr "not found" || Contains errStr "no rows"
      then Some (ErrorfWW ErrNotFound e)
      else Some (ErrorfWW ErrInternal e)
  end.

End ErrorText.

(** ** Logs *)

(** [logpoller.Log], with the fields the binding reads.  [BlockNumber] and
    [LogIndex] are [int64]. *)
Record Log : Type := mkLog {
  BlockNumber : Z;
  LogIndex : Z;
  Topics : list bytes;
  Data : bytes
}.

#[global] Instance Log_eq_dec : EqDecision Log.
Proof. solve_decision. Defined.

(** Two's-complement wrap-around of a 64-bit signed result. *)
Definition int64 (z : Z) : Z := ((z + 2 ^ 63) mod 2 ^ 64 - 2 ^ 63)%Z.

Definition is_int64 (z : Z) : Prop := (- 2 ^ 63 <= z < 2 ^ 63)%Z.

(** The result of running code that may stop with a run-time panic: an index
    out of range, a slice too short for the array it is converted to, or a
    nil pointer followed. *)
Inductive panic : Type := IndexOutOfRange | SliceTooShort | NilDereference.

Inductive exec (A : Type) : Type :=
  | Returns (a : A)
  | Panics (p : panic).
Arguments Returns {A} a.
Arguments Panics {A} p.

(** [compareLogs(log, use)]; [use] is a possibly nil pointer. *)
Definition compareLogs (log : Log) (use : option Log) : Z :=
  match use with
  | None => 1%Z
  | Some u =>
      if bool_decide (BlockNumber log ≠ BlockNumber u)
      then int64 (BlockNumber log - BlockNumber u)
      else int64 (LogIndex log - LogIndex u)
  end.

(** The loop of [matchesRemainingFilters], from index [i] on: the filter at
    index [i] is compared with [log.Topics[i+2]]. *)
Fixpoint matchesFrom (i : nat) (topics : list bytes) (filters : list Hash)
  : exec bool :=
  match filters with
  | [] => Returns true
  | rfai :: rest =>
      match topics !! (i + 2) with
      | None => Panics IndexOutOfRange
      | Some t =>
          if bool_decide (rfai = t) then matchesFrom (S i) topics rest
          else Returns false
      end
  end.

Definition matchesRemainingFilters (log : Log) (filters : list Hash) : exec bool :=
  matchesFrom 0 (Topics log) filters.

(** One iteration of the selection loop of [getLatestValueWithFilters]:
    [compareLogs(..) > 0 && matchesRemainingFilters(..)] with the
    short-circuit of [&&]. *)
Definition selectStep (remainingFilters : list Hash) (logToUse : option Log)
    (log : Log) : exec (option Log) :=
  if bool_decide (0 < compareLogs log logToUse)%Z then
    match matchesRemainingFilters log remainingFilters with
    | Returns true => Returns (Some log)
    | Returns false => Returns logToUse
    | Panics p => Panics p
    end
  else Returns logToUse.

Fixpoint selectLoop (remainingFilters : list Hash) (logToUse : option Log)
    (logs : list Log) : exec (option Log) :=
  match logs with
  | [] => Returns logToUse
  | log :: rest =>
      match selectStep remainingFilters logToUse log with
      | Returns use' => selectLoop remainingFilters use' rest
      | Panics p => Panics p
      end
  end.

(** ** The log poller *)

Inductive Confirmations : Type := Finalized | Unconfirmed.

(** [logpoller.Filter], with the fields the binding sets. *)
Record Filter : Type := mkFilter {
  Name : string;
  EventSigs : list Hash;
  Addresses : list Address
}.

(** The calls a binding makes on its log poller, with their arguments. *)
Inductive Call : Type :=
  | CallHasFilter (name : string)
  | CallRegisterFilter (f : Filter)
  | CallUnregisterFilter (name : string)
  | CallLatestLogByEventSigWithConfs (sig : Hash) (addr : Address)
      (confs : Confirmations)
  | CallIndexedLogs (sig : Hash) (addr : Address) (topicIndex : Z)
      (topicValues : list Hash) (confs : Confirmations).

(** Modelled from the spec: the log poller ([logpoller.LogPoller]) is a
    collaborator whose code is not part of the binding.  Its filters are a
    set keyed by filter name with has / add / remove; a filter mutation
    either succeeds or fails with an error and then changes nothing.
    [lpFaults] schedules the outcomes of the coming mutations (an exhausted
    schedule means success), the two query fields answer the read calls, and
    [lpCalls] records every call in the order it was made. *)
Record LogPoller : Type := mkLogPoller {
  lpFilters : gmap string Filter;
  lpFaults : list (option error);
  lpLatestLog : Hash -> Address -> Confirmations -> option Log * option error;
  lpIndexedLogs :
    Hash -> Address -> Z -> list Hash -> Confirmations ->
    list Log * option error;
  lpCalls : list Call
}.

(** Modelled from the spec: the poller after a call was made on it. *)
Definition called (c : Call) (lp : LogPoller) : LogPoller :=
  mkLogPoller (lpFilters lp) (lpFaults lp) (lpLatestLog lp) (lpIndexedLogs lp)
    (lpCalls lp ++ [c]).

(** Modelled from the spec: the poller after a filter mutation, with the
    filters it ends with; the scheduled outcome is used up. *)
Definition mutated (m : gmap string Filter) (lp : LogPoller) : LogPoller :=
  mkLogPoller m (tail (lpFaults lp)) (lpLatestLog lp) (lpIndexedLogs lp)
    (lpCalls lp).

(** Modelled from the spec: [HasFilter(id) -> bool]. *)
Definition HasFilter (lp : LogPoller) (name : string) : LogPoller * bool :=
  (called (CallHasFilter name) lp, bool_decide (is_Some (lpFilters lp !! name))).

(** Modelled from the spec: [RegisterFilter] adds the filter under its name,
    unless it fails. *)
Definition RegisterFilter (lp : LogPoller) (f : Filter)
  : LogPoller * option error :=
  let lp1 := called (CallRegisterFilter f) lp in
  match lpFaults lp1 with
  | Some err :: _ => (mutated (lpFilters lp1) lp1, Some err)
  | _ => (mutated (<[Name f := f]> (lpFilters lp1)) lp1, None)
  end.

(** Modelled from the spec: [UnregisterFilter] removes the filter of that
    name, unless it fails. *)
Definition UnregisterFilter (lp : LogPoller) (name : string)
  : LogPoller * option error :=
  let lp1 := called (CallUnregisterFilter name) lp in
  match lpFaults lp1 with
  | Some err :: _ => (mutated (lpFilters lp1) lp1, Some err)
  | _ => (mutated (delete name (lpFilters lp1)) lp1, None)
  end.

(** Modelled from the spec: [LatestLogByEventSigWithConfs] answers from the
    poller's store and leaves the filters alone. *)
Definition LatestLogByEventSigWithConfs (lp : LogPoller) (sig : Hash)
    (addr : Address) (confs : Confirmations)
  : LogPoller * (option Log * option error) :=
  (called (CallLatestLogByEventSigWithConfs sig addr confs) lp,
   lpLatestLog lp sig addr confs).

(** Modelled from the spec: [IndexedLogs] answers from the poller's store
    with a sequence of logs in no particular order and leaves the filters
    alone. *)
Definition IndexedLogs (lp : LogPoller) (sig : Hash) (addr : Address)
    (topicIndex : Z) (topicValues : list Hash) (confs : Confirmations)
  : LogPoller * (list Log * option error) :=
  (called (CallIndexedLogs sig addr topicIndex topicValues confs) lp,
   lpIndexedLogs lp sig addr topicIndex topicValues confs).

(** Whether the poller currently holds a filter of that name. *)
Definition holds (lp : LogPoller) (name : string) : bool :=
  bool_decide (is_Some (lpFilters lp !! name)).

(** ** The binding *)

(** [codecEntry]: the argument list of an item; the binding only counts it. *)
Record codecEntry : Type := mkCodecEntry { Args : list string }.

(** [eventBinding].  The log poller it points to is shared and is threaded
    through the operations below; the codec and the input modifier are the
    collaborators of section [Reads]. *)
Record eventBinding : Type := mkEventBinding {
  address : Address;
  contractName : string;
  eventName : string;
  hash : Hash;
  pending : bool;
  bound : bool;
  registerCalled : bool;
  inputInfo : codecEntry;
  topicInfo : codecEntry;
  id : string
}.

(** [commontypes.BoundContract] *)
Record BoundContract : Type := mkBoundContract {
  bcAddress : string;
  bcName : string;
  bcPending : bool
}.

(** [e.registerCalled = true] *)
Definition markRegisterCalled (e : eventBinding) : eventBinding :=
  mkEventBinding (address e) (contractName e) (eventName e) (hash e)
    (pending e) (bound e) true (inputInfo e) (topicInfo e) (id e).

(** [e.address = a; e.pending = p; e.bound = true] *)
Definition rebound (e : eventBinding) (a : Address) (p : bool) : eventBinding :=
  mkEventBinding a (contractName e) (eventName e) (hash e)
    p true (registerCalled e) (inputInfo e) (topicInfo e) (id e).

Definition Register (lp : LogPoller) (e : eventBinding)
  : LogPoller * eventBinding * option error :=
  let e := markRegisterCalled e in
  if negb (bound e) then (lp, e, None)
  else
    let '(lp, has) := HasFilter lp (id e) in
    if has then (lp, e, None)
    else
      let '(lp, err) :=
        RegisterFilter lp (mkFilter (id e) [hash e] [address e]) in
      match err with
      | Some err => (lp, e, Some (ErrorfWW ErrInternal err))
      | None => (lp, e, None)
      end.

Definition Unregister (lp : LogPoller) (e : eventBinding)
  : LogPoller * eventBinding * option error :=
  let '(lp, has) := HasFilter lp (id e) in
  if negb has then (lp, e, None)
  else
    let '(lp, err) := UnregisterFilter lp (id e) in
    match err with
    | Some err => (lp, e, Some (ErrorfWW ErrInternal err))
    | None => (lp, e, None)
    end.

(** The operations of the life cycle, for sequences of them on one
    binding. *)

Inductive Op : Type :=
  | OpBind (binding : BoundContract)
  | OpRegister
  | OpUnregister.

(** [common.HexToAddress] of go-ethereum. *)
Class AddressParser : Type := HexToAddress : string -> Address.

Section Lifecycle.

Context {parser : AddressParser}.

Definition Bind (lp : LogPoller) (e : eventBinding) (binding : BoundContract)
  : LogPoller * eventBinding * option error :=
  let '(lp, e, err) := Unregister lp e in
  match err with
  | Some err => (lp, e, Some err)
  | None =>
      let e := rebound e (HexToAddress (bcAddress binding)) (bcPending binding) in
      if registerCalled e then Register lp e else (lp, e, None)
  end.

(** One operation on the pair of the shared poller and the binding; the
    returned error goes to the caller and does not stop the sequence. *)
Definition step (s : LogPoller * eventBinding) (o : Op)
  : LogPoller * eventBinding :=
  match o with
  | OpBind binding => (Bind s.1 s.2 binding).1
  | OpRegister => (Register s.1 s.2).1
  | OpUnregister => (Unregister s.1 s.2).1
  end.

Definition run (ops : list Op) (s : LogPoller * eventBinding)
  : LogPoller * eventBinding :=
  foldl step s ops.

End Lifecycle.

Definition isRegisterFilter (c : Call) : bool :=
  match c with CallRegisterFilter _ => true | _ => false end.

(** ** Reading the latest value *)

(** [common.Hash(b)] for a slice [b]: the first 32 bytes, and a panic when
    there are fewer. *)
Definition toHash (b : bytes) : exec Hash :=
  if bool_decide (length b < 32) then Panics SliceTooShort
  else Returns (take 32 b).

(** [for i := 0; i < len(topics); i++ { topics[i] = common.Hash(log.Topics[i+1]) }],
    from index [i] on, [n] iterations left. *)
Fixpoint copyTopics (i n : nat) (logTopics : list bytes) : exec (list Hash) :=
  match n with
  | O => Returns []
  | S n' =>
      match logTopics !! (i + 1) with
      | None => Panics IndexOutOfRange
      | Some t =>
          match toHash t with
          | Panics p => Panics p
          | Returns h =>
              match copyTopics (S i) n' logTopics with
              | Panics p => Panics p
              | Returns hs => Returns (h :: hs)
              end
          end
      end
  end.

(** The collaborators of the read path over the values [V] handled through
    [any] (parameters, output targets, decoded items).  Each function returns
    its result and its error as the Go function does. *)

(** [commontypes.RemoteCodec], the methods the binding calls. *)
Class RemoteCodec (V : Type) : Type := {
  CreateType : string -> bool -> V * option error;
  Decode : bytes -> V -> string -> V * option error
}.

(** [codec.Modifier], the method the binding calls. *)
Class Modifier (V : Type) : Type := {
  TransformForOnChain : V -> string -> V * option error
}.

(** Functions of the package and of go-ethereum that the binding calls:
    the item naming of the codec, [mapstructureDecode], [encodeParams]
    (which rests on reflection and on [abi.MakeTopics]) and
    [abi.ParseTopics]. *)
Class Package (V : Type) : Type := {
  WrapItemType : string -> string -> bool -> string;
  mapstructureDecode : V -> V -> V * option error;
  encodeParams : eventBinding -> V -> list Hash * option error;
  ParseTopics : list string -> list Hash -> V * option error
}.

Section Reads.

Context {texts : SentinelTexts} {V : Type} {codec : RemoteCodec V}
  {modifier : Modifier V} {package : Package V}.

Definition convertToOffChainType (e : eventBinding) (params : V)
  : V * option error :=
  let itemType := WrapItemType (contractName e) (eventName e) true in
  let '(offChain, err) := CreateType itemType true in
  match err with
  | Some err => (offChain, Some err)
  | None =>
      let '(offChain, err) := mapstructureDecode params offChain in
      match err with
      | Some err => (offChain, Some err)
      | None => (offChain, None)
      end
  end.

Definition decodeLog (e : eventBinding) (log : option Log) (into : V)
  : exec (V * option error) :=
  match log with
  | None => Panics NilDereference
  | Some log =>
      let dataType := WrapItemType (contractName e) (eventName e) false in
      let '(into, err) := Decode (Data log) into dataType in
      match err with
      | Some err => Returns (into, Some err)
      | None =>
          let n := length (Args (topicInfo e)) in
          if bool_decide (length (Topics log) < n + 1) then
            Returns (into,
              Some (ErrorfW ErrInvalidType "not enough topics to decode"))
          else
            match copyTopics 0 n (Topics log) with
            | Panics p => Panics p
            | Returns topics =>
                let '(topicsInto, err) :=
                  ParseTopics (Args (topicInfo e)) topics in
                match err with
                | Some err => Returns (into, Some (ErrorfWW ErrInvalidType err))
                | None => Returns (mapstructureDecode topicsInto into)
                end
            end
      end
  end.

Definition getLatestValueWithoutFilters (lp : LogPoller) (e : eventBinding)
    (confs : Confirmations) (into : V)
  : LogPoller * exec (V * option error) :=
  let '(lp, (log, err)) :=
    LatestLogByEventSigWithConfs lp (hash e) (address e) confs in
  match wrapInternalErr err with
  | Some err => (lp, Returns (into, Some err))
  | None => (lp, decodeLog e log into)
  end.

Definition getLatestValueWithFilters (lp : LogPoller) (e : eventBinding)
    (confs : Confirmations) (params into : V)
  : LogPoller * exec (V * option error) :=
  let '(offChain, err) := convertToOffChainType e params in
  match err with
  | Some err => (lp, Returns (into, Some err))
  | None =>
  let '(checkedParams, err) := TransformForOnChain offChain "" in
  match err with
  | Some err => (lp, Returns (into, Some err))
  | None =>
  let '(filtersAndIndices, err) := encodeParams e checkedParams in
  match err with
  | Some err => (lp, Returns (into, Some err))
  | None =>
  match filtersAndIndices with
  | [] => (lp, Panics IndexOutOfRange)
  | fai :: remainingFilters =>
      let '(lp, (logs, err)) :=
        IndexedLogs lp (hash e) (address e) 1 [fai] confs in
      match err with
      | Some _ => (lp, Returns (into, wrapInternalErr err))
      | None =>
          match selectLoop remainingFilters None logs with
          | Panics p => (lp, Panics p)
          | Returns None =>
              (lp, Returns (into, Some (ErrorfW ErrNotFound "no events found")))
          | Returns (Some logToUse) => (lp, decodeLog e (Some logToUse) into)
          end
      end
  end end end end.

Definition GetLatestValue (lp : LogPoller) (e : eventBinding) (params into : V)
  : LogPoller * exec (V * option error) :=
  if negb (bound e) then
    (lp, Returns (into, Some (ErrorfW ErrInvalidType "event not bound")))
  else
    let confs := if pending e then Unconfirmed else Finalized in
    if bool_decide (length (Args (inputInfo e)) = 0) then
      getLatestValueWithoutFilters lp e confs into
    else
      getLatestValueWithFilters lp e confs params into.

(** *** Vocabulary of the statements about reads *)

(** The confirmation policy a read uses. *)
Definition confsOf (e : eventBinding) : Confirmations :=
  if pending e then Unconfirmed else Finalized.

(** The topic hashes computed from the parameters, when the three steps that
    lead to them succeed. *)
Definition computedFilters (e : eventBinding) (params : V)
  : option (list Hash) :=
  match convertToOffChainType e params with
  | (offChain, None) =>
      match TransformForOnChain offChain "" with
      | (checkedParams, None) =>
          match encodeParams e checkedParams with
          | (filtersAndIndices, None) => Some filtersAndIndices
          | _ => None
          end
      | _ => None
      end
  | _ => None
  end.

(** The log that a read hands to [decodeLog]: the poller's latest log on the
    path without filters, the log the selection loop ends with on the
    filtered path. *)
Definition selectedForDecoding (lp : LogPoller) (e : eventBinding) (params : V)
    (log : Log) : Prop :=
  (length (Args (inputInfo e)) = 0 /\
   lpLatestLog lp (hash e) (address e) (confsOf e) = (Some log, None)) \/
  (length (Args (inputInfo e)) <> 0 /\
   exists fai remaining logs,
     computedFilters e params = Some (fai :: remaining) /\
     lpIndexedLogs lp (hash e) (address e) 1 [fai] (confsOf e) = (logs, None) /\
     selectLoop remaining None logs = Returns (Some log)).

End Reads.

(** ** Vocabulary of the statements about candidates *)

(** Block numbers and log indices of stored logs are counted from zero. *)
Definition wf_log (l : Log) : Prop :=
  (0 <= BlockNumber l < 2 ^ 63)%Z /\ (0 <= LogIndex l < 2 ^ 63)%Z.

Definition wf_opt (use : option Log) : Prop :=
  match use with Some u => wf_log u | None => True end.

(** The lexicographic order on (block number, log index). *)
Definition key_lt (a b : Log) : Prop :=
  (BlockNumber a < BlockNumber b)%Z \/
  (BlockNumber a = BlockNumber b /\ LogIndex a < LogIndex b)%Z.

Definition key_le (a b : Log) : Prop :=
  (BlockNumber a < BlockNumber b)%Z \/
  (BlockNumber a = BlockNumber b /\ LogIndex a <= LogIndex b)%Z.

(** A candidate survives narrowing when [matchesRemainingFilters] returns
    true for it. *)
Definition survives (filters : list Hash) (l : Log) : Prop :=
  matchesRemainingFilters l filters = Returns true.

(** A candidate carries a topic for every remaining filter. *)
Definition narrowable (filters : list Hash) (l : Log) : Prop :=
  length filters + 2 <= length (Topics l).

(** A candidate matches the remaining hashes when, for each of them, its
    topic two slots further on is that hash. *)
Definition matchesAll (filters : list Hash) (l : Log) : Prop :=
  forall i, i < length filters -> Topics l !! (i + 2) = filters !! i.

(** An error message mentions a text when the text occurs in it. *)
Definition mentions (s substr : string) : Prop :=
  exists pre post, s = pre +:+ substr +:+ post.

(** ** Concrete bindings, pollers and logs for the examples *)

Module Demo.

Definition h32 (b : Byte.byte) : Hash := repeat b 32.

Definition sigHash : Hash := h32 xaa.
Definition first : Hash := h32 x01.
Definition second : Hash := h32 x02.
Definition third : Hash := h32 x03.
Definition other : Hash := h32 xff.

#[local] Instance texts : SentinelTexts := fun e =>
  match e with
  | ErrInvalidType => "invalid type"
  | ErrNotFound => "not found"
  | ErrInternal => "internal error"
  | _ => ""
  end.

#[local] Instance parser : AddressParser := fun s =>
  repeat (if bool_decide (s = "0x01") then x01 else x02) 20.

(** Values are lists of byte strings: the parameters are given as the topic
    hashes they encode to, a decoded item lists the data payload followed by
    the indexed topics. *)
#[local] Instance codec : RemoteCodec (list bytes) := {
  CreateType _ _ := ([], None);
  Decode raw into _ := (into ++ [raw], None)
}.

#[local] Instance modifier : Modifier (list bytes) := {
  TransformForOnChain v _ := (v, None)
}.

#[local] Instance package : Package (list bytes) := {
  WrapItemType c e isParams :=
    (if isParams then "params." else "return.") +:+ c +:+ "." +:+ e;
  mapstructureDecode input output := (output ++ input, None);
  encodeParams _ v := (v, None);
  ParseTopics _ topics := (topics, None)
}.

(** A codec that cannot decode the data payload. *)
Definition failingCodec : RemoteCodec (list bytes) := {|
  CreateType _ _ := ([], None);
  Decode _ into _ := (into, Some (ErrorfW ErrInternal "unexpected decode failure"))
|}.

Definition binding (isBound : bool) (inputs : list string) : eventBinding :=
  mkEventBinding (repeat x00 20) "Feed" "Transfer" sigHash
    false isBound false (mkCodecEntry inputs) (mkCodecEntry ["from"; "to"])
    "binding-1".

Definition twin : eventBinding :=
  mkEventBinding (repeat x00 20) "Feed" "Transfer" sigHash
    false true false (mkCodecEntry ["from"; "to"]) (mkCodecEntry ["from"; "to"])
    "binding-2".

Definition poller (latest : option Log) (indexed : list Log) : LogPoller :=
  mkLogPoller ∅ []
    (fun _ _ _ =>
       match latest with
       | Some l => (Some l, None)
       | None => (None, Some (ErrorNew "sql: no rows in result set"))
       end)
    (fun _ _ _ _ _ => (indexed, None)) [].

Definition logAt (block index : Z) (thirdTopic : Hash) : Log :=
  mkLog block index [sigHash; first; thirdTopic] [x2a].

(** Same block, indices 2 and 5; blocks 11 and 12. *)
Definition log_10_2 : Log := logAt 10 2 second.
Definition log_10_5 : Log := logAt 10 5 second.
Definition log_11_0 : Log := logAt 11 0 second.
Definition log_12_0 : Log := logAt 12 0 second.

(** A newer log whose third topic differs. *)
Definition log_20_other : Log := logAt 20 0 other.

(** A log with the signature topic and one indexed topic only. *)
Definition log_short : Log := mkLog 30 0 [sigHash; first] [x2a].

(** A log with the signature topic only. *)
Definition log_bare : Log := mkLog 40 0 [sigHash] [x2a].

(** Two logs whose block numbers lie further apart than an [int64] holds. *)
Definition log_far_below : Log := logAt (- 2 ^ 62 - 1) 0 second.
Definition log_far_above : Log := logAt (2 ^ 62) 0 second.

(** Reads and decoding with the collaborators above. *)
Abbreviation read :=
  (GetLatestValue (texts := texts) (codec := codec) (modifier := modifier)
     (package := package)).

Abbreviation decode := (decodeLog (codec := codec) (package := package)).

End Demo.

(** ** Encoding of the parameters: [encodeParams] *)

(** [reflect.Kind] of a value that is not a pointer, with the text that
    [%v] prints for it. *)
Inductive Kind : Type :=
  | Invalid | Bool | Int | Int8 | Int16 | Int32 | Int64
  | Uint | Uint8 | Uint16 | Uint32 | Uint64 | Uintptr
  | Float32 | Float64 | Complex64 | Complex128
  | Array | Chan | Func | Interface | Map | Slice | String_ | Struct
  | UnsafePointer.

Definition Kind_String (k : Kind) : string :=
  match k with
  | Invalid => "invalid" | Bool => "bool" | Int => "int" | Int8 => "int8"
  | Int16 => "int16" | Int32 => "int32" | Int64 => "int64" | Uint => "uint"
  | Uint8 => "uint8" | Uint16 => "uint16" | Uint32 => "uint32"
  | Uint64 => "uint64" | Uintptr => "uintptr" | Float32 => "float32"
  | Float64 => "float64" | Complex64 => "complex64"
  | Complex128 => "complex128" | Array => "array" | Chan => "chan"
  | Func => "func" | Interface => "interface" | Map => "map"
  | Slice => "slice" | String_ => "string" | Struct => "struct"
  | UnsafePointer => "unsafe.Pointer"
  end.

(** A [reflect.Value] as [encodeParams] looks at it: a pointer to a value, a
    nil pointer, or a value of another kind.  [reflect.Indirect] of a nil
    pointer is the zero [Value], whose kind is [Invalid]. *)
Inductive Value (V : Type) : Type :=
  | PointerTo (target : Value V)
  | NilPointer
  | Plain (k : Kind) (v : V).
Arguments PointerTo {V} target.
Arguments NilPointer {V}.
Arguments Plain {V} k v.

(** [for item.Kind() == reflect.Pointer { item = reflect.Indirect(item) }] *)
Fixpoint indirectAll {V : Type} (item : Value V) : Kind * option V :=
  match item with
  | PointerTo target => indirectAll target
  | NilPointer => (Invalid, None)
  | Plain k v => (k, Some v)
  end.

(** The functions [encodeParams] rests on: [representArray] and [unrollItem]
    of the package, [abi.MakeTopics] of go-ethereum (called with one query). *)
Class TopicEncoding (V : Type) : Type := {
  representArray : V -> codecEntry -> V * option error;
  unrollItem : V -> codecEntry -> list V * option error;
  MakeTopics : list V -> list (list Hash) * option error
}.

Section EncodeParams.

Context {texts : SentinelTexts} {V : Type} {encoding : TopicEncoding V}.

(** The [switch item.Kind()] of [encodeParams]: the topics to hash. *)
Definition topicsOf (e : eventBinding) (item : Value V)
  : list V * option error :=
  match indirectAll item with
  | (Array, Some v) | (Slice, Some v) =>
      let '(native, err) := representArray v (inputInfo e) in
      match err with
      | Some err => ([], Some err)
      | None => ([native], None)
      end
  | (Struct, Some v) | (Map, Some v) =>
      let '(topics, err) := unrollItem v (inputInfo e) in
      match err with
      | Some err => ([], Some err)
      | None => (topics, None)
      end
  | (k, _) =>
      ([], Some (ErrorfW ErrInvalidType ("cannot encode kind " +:+ Kind_String k)))
  end.

Definition encodeParamsOf (e : eventBinding) (item : Value V)
  : list Hash * option error :=
  let '(topics, err) := topicsOf e item in
  match err with
  | Some err => ([], Some err)
  | None =>
      let '(hashes, err) := MakeTopics topics in
      match err with
      | Some _ => ([], wrapInternalErr err)
      | None =>
          if bool_decide (length hashes ≠ 1) then
            ([], Some (ErrorfW ErrInternal
                         ("expected 1 filter set, got " +:+ pretty (length hashes))))
          else
            match hashes with
            | set :: _ => (set, None)
            | [] => ([], None)
            end
      end
  end.

End EncodeParams.

(** ** Vocabulary of the statements about the life cycle *)

(** The error an operation returns to its caller. *)
Definition outcome {parser : AddressParser} (s : LogPoller * eventBinding)
    (o : Op)
  : option error :=
  match o with
  | OpBind binding => (Bind s.1 s.2 binding).2
  | OpRegister => (Register s.1 s.2).2
  | OpUnregister => (Unregister s.1 s.2).2
  end.

(** A filter held under the binding's id is the filter of the binding as it
    is now, and the binding is bound and asked to be registered. *)
Definition in_sync (s : LogPoller * eventBinding) : Prop :=
  forall f, lpFilters s.1 !! id s.2 = Some f ->
    f = mkFilter (id s.2) [hash s.2] [address s.2] /\
    bound s.2 = true /\ registerCalled s.2 = true.

(** What no operation of the life cycle changes in a binding: its id, its
    event and its schemas stay, the latch and the bound flag are never
    taken back. *)
Definition evolves (e e' : eventBinding) : Prop :=
  id e' = id e /\ hash e' = hash e /\
  contractName e' = contractName e /\ eventName e' = eventName e /\
  inputInfo e' = inputInfo e /\ topicInfo e' = topicInfo e /\
  (registerCalled e = true -> registerCalled e' = true) /\
  (bound e = true -> bound e' = true).

(** The two read calls. *)
Definition isReadCall (c : Call) : bool :=
  match c with
  | CallLatestLogByEventSigWithConfs _ _ _ | CallIndexedLogs _ _ _ _ _ => true
  | _ => false
  end.

(** Two logs with the same block number and log index are the same log. *)
Definition keys_distinct (logs : list Log) : Prop :=
  forall a b, a ∈ logs -> b ∈ logs ->
    BlockNumber a = BlockNumber b -> LogIndex a = LogIndex b -> a = b.

(** ** The test accounts of the codec tests: [GetAccountBytes] *)

(** [byte(z)]: the low eight bits. *)
Definition toByte (z : Z) : Byte.byte :=
  default x00 (Byte.of_N (Z.to_N (z mod 256))).

(** [a += b] on bytes. *)
Definition addByte (a b : Byte.byte) : Byte.byte :=
  toByte (Z.of_N (Byte.to_N a) + Z.of_N (Byte.to_N b)).

(** [account[idx] += b] on an array, with the bounds check of the index. *)
Definition bumpAt (account : list Byte.byte) (idx : Z) (b : Byte.byte)
  : exec (list Byte.byte) :=
  if bool_decide (0 <= idx)%Z then
    match account !! Z.to_nat idx with
    | Some a => Returns (<[Z.to_nat idx := addByte a b]> account)
    | None => Panics IndexOutOfRange
    end
  else Panics IndexOutOfRange.

Definition baseAccount : list Byte.byte :=
  [x01; x02; x03; x04; x05; x06; x07; x08; x09; x0a;
   x01; x02; x03; x04; x05; x06; x07; x08; x09; x0a].

(** [GetAccountBytes(i)] for an [int] of 64 bits; [%] is the remainder of
    the division that truncates. *)
Definition GetAccountBytes (i : Z) : exec (list Byte.byte) :=
  match bumpAt baseAccount (Z.rem i 20) (toByte i) with
  | Panics p => Panics p
  | Returns account =>
      bumpAt account (Z.rem (int64 (i + 3)) 20) (toByte (int64 (i + 3)))
  end.

#[global] Instance panic_eq_dec : EqDecision panic.
Proof. solve_decision. Defined.

#[global] Instance exec_eq_dec {A : Type} `{EqDecision A} : EqDecision (exec A).
Proof. solve_decision. Defined.

(** The accounts of the indices 0 to 1279. *)
Definition accountTable : list (exec (list Byte.byte)) :=
  (fun k => GetAccountBytes (Z.of_nat k)) <$> seq 0 1280.

(** An account read as one number, least significant byte first. *)
Definition accountKey (r : exec (list Byte.byte)) : Z :=
  match r with
  | Returns account =>
      foldr (fun b key => Z.of_N (Byte.to_N b) + 256 * key)%Z 0%Z account
  | Panics _ => (-1)%Z
  end.

Fixpoint strictlyIncreasing (l : list Z) : bool :=
  match l with
  | x :: rest =>
      match rest with
      | y :: _ => bool_decide (x < y)%Z && strictlyIncreasing rest
      | [] => true
      end
  | [] => true
  end.

(** * Properties *)

Ltac unfold_lp :=
  unfold HasFilter, RegisterFilter, UnregisterFilter, called, mutated, holds in *;
  simpl in *.

Ltac candidates_ok :=
  rewrite ?Forall_cons; unfold wf_log, narrowable; simpl;
  split_and!; try lia; try apply Forall_nil; try exact I.

(** ** Narrowing: [matchesRemainingFilters] *)

Lemma matchesFrom_true (filters : list Hash) (topics : list bytes) (i : nat) :
  matchesFrom i topics filters = Returns true <->
  (forall j, j < length filters -> topics !! (i + j + 2) = filters !! j).
Proof.
  revert i; induction filters as [|f rest IH]; intros i; simpl.
  - split; [intros _ j Hj; lia | done].
  - destruct (topics !! (i + 2)) as [t|] eqn:Ht.
    + case_bool_decide as Hft.
      * subst t. rewrite IH. split.
        -- intros H [|j] Hj.
           ++ rewrite Nat.add_0_r. done.
           ++ replace (i + S j + 2) with (S i + j + 2) by lia. apply H. lia.
        -- intros H j Hj. specialize (H (S j) ltac:(lia)).
           by replace (S i + j + 2) with (i + S j + 2) by lia.
      * split; [done|]. intros H. specialize (H 0 ltac:(lia)).
        rewrite Nat.add_0_r, Ht in H. simpl in H. congruence.
    + split; [done|]. intros H. specialize (H 0 ltac:(lia)).
      rewrite Nat.add_0_r, Ht in H. done.
Qed.

Lemma matchesFrom_false (filters : list Hash) (topics : list bytes) (i : nat) :
  matchesFrom i topics filters = Returns false <->
  (exists j f t, filters !! j = Some f /\ topics !! (i + j + 2) = Some t /\ f <> t).
Proof.
  revert i; induction filters as [|f rest IH]; intros i; simpl.
  - split; [done|]. intros (j & f & t & Hf & _). by rewrite lookup_nil in Hf.
  - destruct (topics !! (i + 2)) as [t|] eqn:Ht.
    + case_bool_decide as Hft.
      * subst t. rewrite IH. split.
        -- intros (j & f' & t & Hf & Hl & Hne). exists (S j), f', t.
           split; [done|]. split; [|done].
           by replace (i + S j + 2) with (S i + j + 2) by lia.
        -- intros ([|j] & f' & t & Hf & Hl & Hne); simpl in Hf.
           ++ rewrite Nat.add_0_r in Hl. congruence.
           ++ exists j, f', t. split; [done|]. split; [|done].
              by replace (S i + j + 2) with (i + S j + 2) by lia.
      * split; [|done]. intros _. exists 0, f, t. split; [done|].
        split; [|done]. by rewrite Nat.add_0_r.
    + split; [done|]. intros (j & f' & t & _ & Hl & _).
      apply lookup_lt_Some in Hl. apply lookup_ge_None in Ht. lia.
Qed.

(** The access is out of range exactly when the slot of some filter is
    missing while the slots of all earlier filters hold equal values. *)
Lemma matchesFrom_panics (filters : list Hash) (topics : list bytes) (i : nat)
    (p : panic) :
  matchesFrom i topics filters = Panics p <->
  p = IndexOutOfRange /\
  (exists j, j < length filters /\ topics !! (i + j + 2) = None /\
     forall j', j' < j -> topics !! (i + j' + 2) = filters !! j').
Proof.
  revert i; induction filters as [|f rest IH]; intros i; simpl.
  - split; [done|]. intros (_ & j & Hj & _). lia.
  - destruct (topics !! (i + 2)) as [t|] eqn:Ht.
    + case_bool_decide as Hft.
      * subst t. rewrite IH. split.
        -- intros (-> & j & Hj & Hn & Hm). split; [done|]. exists (S j).
           split; [lia|]. split.
           ++ by replace (i + S j + 2) with (S i + j + 2) by lia.
           ++ intros [|j'] Hj'.
              ** by rewrite Nat.add_0_r.
              ** replace (i + S j' + 2) with (S i + j' + 2) by lia.
                 apply Hm. lia.
        -- intros (-> & [|j] & Hj & Hn & Hm).
           ++ rewrite Nat.add_0_r in Hn. congruence.
           ++ split; [done|]. exists j. split; [lia|]. split.
              ** by replace (S i + j + 2) with (i + S j + 2) by lia.
              ** intros j' Hj'. specialize (Hm (S j') ltac:(lia)).
                 by replace (S i + j' + 2) with (i + S j' + 2) by lia.
      * split; [done|]. intros (_ & [|j] & Hj & Hn & Hm).
        -- rewrite Nat.add_0_r in Hn. congruence.
        -- specialize (Hm 0 ltac:(lia)). rewrite Nat.add_0_r, Ht in Hm.
           simpl in Hm. congruence.
    + split.
      * intros [= <-]. split; [done|]. exists 0. split; [lia|].
        split; [by rewrite Nat.add_0_r | intros j' Hj'; lia].
      * intros (-> & _). done.
Qed.

(** With [k + 2] topics on the log no access is out of range. *)
Lemma matchesFrom_total (filters : list Hash) (topics : list bytes) (i : nat) :
  i + length filters + 2 <= length topics ->
  exists b, matchesFrom i topics filters = Returns b.
Proof.
  intros Hlen. destruct (matchesFrom i topics filters) as [b|p] eqn:E; [eauto|].
  apply matchesFrom_panics in E as (_ & j & Hj & Hn & _).
  apply lookup_ge_None in Hn. lia.
Qed.

(** ** Ordering: [compareLogs] *)

Lemma int64_small (z : Z) : is_int64 z -> int64 z = z.
Proof.
  unfold is_int64, int64. intros H.
  rewrite Z.mod_small by lia. lia.
Qed.

Lemma key_le_refl (a : Log) : key_le a a.
Proof. unfold key_le. lia. Qed.

Lemma key_le_trans (a b c : Log) : key_le a b -> key_le b c -> key_le a c.
Proof. unfold key_le. lia. Qed.

Lemma key_lt_le (a b : Log) : key_lt a b -> key_le a b.
Proof. unfold key_lt, key_le. lia. Qed.

Lemma not_key_lt (a b : Log) : ~ key_lt a b -> key_le b a.
Proof. unfold key_lt, key_le. lia. Qed.

(** Without overflow the sign of [compareLogs] is the lexicographic order. *)
Lemma compareLogs_pos (log use : Log) :
  wf_log log -> wf_log use ->
  ((0 < compareLogs log (Some use))%Z <-> key_lt use log).
Proof.
  unfold wf_log, compareLogs, key_lt. intros [Hb Hi] [Hb' Hi'].
  case_bool_decide as Hne.
  - rewrite int64_small by (unfold is_int64; lia). lia.
  - rewrite int64_small by (unfold is_int64; lia). lia.
Qed.

(** ** Selection: the loop over the candidates *)

Lemma narrowable_total (filters : list Hash) (l : Log) :
  narrowable filters l -> exists b, matchesRemainingFilters l filters = Returns b.
Proof. intros H. apply matchesFrom_total. unfold narrowable in H. lia. Qed.

Lemma selectStep_spec (filters : list Hash) (use : option Log) (log : Log) :
  wf_log log -> wf_opt use -> narrowable filters log ->
  exists r, selectStep filters use log = Returns r /\ wf_opt r /\
    (r = use \/ (r = Some log /\ survives filters log)) /\
    (forall u, use = Some u -> exists l, r = Some l /\ key_le u l) /\
    (survives filters log -> exists l, r = Some l /\ key_le log l).
Proof.
  intros Hwf Hu Hn. unfold selectStep, survives.
  destruct (narrowable_total _ _ Hn) as [b Hb]. rewrite Hb.
  case_bool_decide as Hcmp.
  - destruct b.
    + exists (Some log). split_and!; [done | done | by right | |].
      * intros u ->. exists log. split; [done|].
        apply key_lt_le, compareLogs_pos; auto.
      * intros _. exists log. split; [done | apply key_le_refl].
    + exists use. split_and!; [done | done | by left | |].
      * intros u ->. exists u. split; [done | apply key_le_refl].
      * intros [=].
  - exists use. split_and!; [done | done | by left | |].
    + intros u ->. exists u. split; [done | apply key_le_refl].
    + intros _. destruct use as [u|]; [|simpl in Hcmp; lia].
      exists u. split; [done|]. apply not_key_lt. intros Hlt.
      apply Hcmp, compareLogs_pos; auto.
Qed.

Lemma selectLoop_spec (filters : list Hash) (logs : list Log) :
  forall use : option Log,
  wf_opt use -> Forall wf_log logs -> Forall (narrowable filters) logs ->
  exists r, selectLoop filters use logs = Returns r /\
    (r = use \/ exists l, r = Some l /\ l ∈ logs /\ survives filters l) /\
    (forall u, use = Some u -> exists l, r = Some l /\ key_le u l) /\
    (forall l', l' ∈ logs -> survives filters l' ->
       exists l, r = Some l /\ key_le l' l).
Proof.
  induction logs as [|log rest IH]; intros use Hu Hwf Hn; simpl.
  - exists use. split_and!; [done | by left | |].
    + intros u ->. exists u. split; [done | apply key_le_refl].
    + intros l' Hin. by apply elem_of_nil in Hin.
  - apply Forall_cons in Hwf as [Hwl Hwf]. apply Forall_cons in Hn as [Hnl Hn].
    destruct (selectStep_spec filters use log Hwl Hu Hnl)
      as (r1 & -> & Hw1 & Hsel1 & Hold1 & Hnew1).
    destruct (IH r1 Hw1 Hwf Hn) as (r & -> & Hsel & Hold & Hnew).
    exists r. split; [done|]. split; [|split].
    + destruct Hsel as [-> | (l & -> & Hin & Hs)].
      * destruct Hsel1 as [-> | [-> Hs]]; [by left|].
        right. exists log. split; [done|]. split; [apply elem_of_cons; auto | done].
      * right. exists l. split; [done|]. split; [apply elem_of_cons; auto | done].
    + intros u Hu'. destruct (Hold1 u Hu') as (l1 & -> & Hle1).
      destruct (Hold l1 eq_refl) as (l & -> & Hle).
      exists l. split; [done | by eapply key_le_trans].
    + intros l' Hin Hs. apply elem_of_cons in Hin as [-> | Hin].
      * destruct (Hnew1 Hs) as (l1 & -> & Hle1).
        destruct (Hold l1 eq_refl) as (l & -> & Hle).
        exists l. split; [done | by eapply key_le_trans].
      * by apply Hnew.
Qed.

(** From an empty selection: nothing is selected exactly when no candidate
    survives, and a selected log is a surviving candidate that no surviving
    candidate exceeds. *)
Lemma selectLoop_latest (filters : list Hash) (logs : list Log) :
  Forall wf_log logs -> Forall (narrowable filters) logs ->
  (selectLoop filters None logs = Returns None /\
     forall l, l ∈ logs -> ~ survives filters l) \/
  (exists l, selectLoop filters None logs = Returns (Some l) /\
     l ∈ logs /\ survives filters l /\
     forall l', l' ∈ logs -> survives filters l' -> key_le l' l).
Proof.
  intros Hwf Hn.
  destruct (selectLoop_spec filters logs None I Hwf Hn)
    as (r & Hr & Hsel & _ & Hnew).
  destruct Hsel as [-> | (l & -> & Hin & Hs)].
  - left. split; [done|]. intros l Hin Hs.
    destruct (Hnew l Hin Hs) as (? & [=] & _).
  - right. exists l. split_and!; [done | done | done |].
    intros l' Hin' Hs'. destruct (Hnew l' Hin' Hs') as (l2 & [= <-] & Hle). done.
Qed.

(** ** The filter life cycle *)

Lemma Unregister_binding (lp : LogPoller) (e : eventBinding) :
  (Unregister lp e).1.2 = e.
Proof. unfold Unregister. unfold_lp. repeat case_match; simplify_eq; done. Qed.

Lemma Register_binding (lp : LogPoller) (e : eventBinding) :
  (Register lp e).1.2 = markRegisterCalled e.
Proof. unfold Register. unfold_lp. repeat case_match; simplify_eq; done. Qed.

(** [Unregister] leaves the filters as they are or removes the one filter
    named by the binding's id. *)
Lemma Unregister_filters (lp : LogPoller) (e : eventBinding) :
  lpFilters (Unregister lp e).1.1 = lpFilters lp \/
  lpFilters (Unregister lp e).1.1 = delete (id e) (lpFilters lp).
Proof. unfold Unregister. unfold_lp. repeat case_match; simplify_eq; auto. Qed.

(** [Register] leaves the filters as they are or adds the one filter named
    by the binding's id. *)
Lemma Register_filters (lp : LogPoller) (e : eventBinding) :
  lpFilters (Register lp e).1.1 = lpFilters lp \/
  (bound e = true /\ lpFilters lp !! id e = None /\
   lpFilters (Register lp e).1.1 =
     <[id e := mkFilter (id e) [hash e] [address e]]> (lpFilters lp)).
Proof.
  unfold Register. unfold_lp.
  destruct (bound e) eqn:Hb; simpl; [|auto].
  case_bool_decide as Hh; simpl; [auto|].
  assert (lpFilters lp !! id e = None) as Hnone.
  { destruct (lpFilters lp !! id e) eqn:E; [|done]. exfalso. apply Hh. eauto. }
  repeat case_match; simplify_eq; simpl; auto.
Qed.

(** After a successful [Unregister] the poller holds no filter under the
    binding's id. *)
Lemma Unregister_ok (lp : LogPoller) (e : eventBinding) :
  (Unregister lp e).2 = None ->
  lpFilters (Unregister lp e).1.1 !! id e = None.
Proof.
  unfold Unregister. unfold_lp.
  case_bool_decide as Hh; simpl.
  - repeat case_match; simplify_eq; simpl; intros; try done;
      apply lookup_delete_eq.
  - intros _. destruct (lpFilters lp !! id e) eqn:E; [|done].
    exfalso. apply Hh. eauto.
Qed.

(** A failed [Unregister] has changed no filter. *)
Lemma Unregister_failed (lp : LogPoller) (e : eventBinding) (err : error) :
  (Unregister lp e).2 = Some err ->
  lpFilters (Unregister lp e).1.1 = lpFilters lp /\
  exists cause, err = ErrorfWW ErrInternal cause.
Proof.
  unfold Unregister. unfold_lp.
  repeat case_match; simplify_eq; simpl; intros; simplify_eq; eauto.
Qed.

(** The calls of [Register] on a bound binding whose filter is absent. *)
Lemma Register_absent (lp : LogPoller) (e : eventBinding) :
  bound e = true -> lpFilters lp !! id e = None ->
  lpCalls (Register lp e).1.1 =
    lpCalls lp ++ [CallHasFilter (id e);
                   CallRegisterFilter (mkFilter (id e) [hash e] [address e])].
Proof.
  intros Hb Hn. unfold Register. unfold_lp. rewrite Hb. simpl.
  case_bool_decide as Hh; simpl.
  - rewrite Hn in Hh. by destruct Hh.
  - repeat case_match; simplify_eq; simpl; by rewrite <- app_assoc.
Qed.

(** When no failure is scheduled, [Register] on a bound binding whose filter
    is absent adds the filter and succeeds. *)
Lemma Register_absent_ok (lp : LogPoller) (e : eventBinding) :
  bound e = true -> lpFilters lp !! id e = None -> lpFaults lp = [] ->
  (Register lp e).2 = None /\
  lpFilters (Register lp e).1.1 =
    <[id e := mkFilter (id e) [hash e] [address e]]> (lpFilters lp).
Proof.
  intros Hb Hn Hf. unfold Register. unfold_lp. rewrite Hb. simpl.
  case_bool_decide as Hh; simpl.
  - rewrite Hn in Hh. by destruct Hh.
  - rewrite Hf. done.
Qed.

Lemma Unregister_faults_nil (lp : LogPoller) (e : eventBinding) :
  lpFaults lp = [] ->
  (Unregister lp e).2 = None /\ lpFaults (Unregister lp e).1.1 = [].
Proof.
  intros Hf. unfold Unregister. unfold_lp.
  case_bool_decide; simpl; rewrite ?Hf; done.
Qed.

(** [Unregister] when the poller holds no filter under the id: the presence
    test and nothing else. *)
Lemma Unregister_absent (lp : LogPoller) (e : eventBinding) :
  lpFilters lp !! id e = None ->
  Unregister lp e = (called (CallHasFilter (id e)) lp, e, None).
Proof.
  intros Hn. unfold Unregister. unfold_lp.
  case_bool_decide as Hh; [|done]. rewrite Hn in Hh. by destruct Hh.
Qed.

(** The outcome of [Register] on a bound binding whose filter is absent
    follows the outcome of the poller's registration. *)
Lemma Register_absent_outcome (lp : LogPoller) (e : eventBinding) :
  bound e = true -> lpFilters lp !! id e = None ->
  match head (lpFaults lp) with
  | Some (Some err) =>
      (Register lp e).2 = Some (ErrorfWW ErrInternal err) /\
      lpFilters (Register lp e).1.1 = lpFilters lp
  | _ =>
      (Register lp e).2 = None /\
      lpFilters (Register lp e).1.1 =
        <[id e := mkFilter (id e) [hash e] [address e]]> (lpFilters lp)
  end.
Proof.
  intros Hb Hn. unfold Register. unfold_lp. rewrite Hb. simpl.
  case_bool_decide as Hh; simpl.
  - rewrite Hn in Hh. by destruct Hh.
  - by destruct (lpFaults lp) as [|[err|] rest].
Qed.

Section LifecycleFacts.

Context {parser : AddressParser}.

Lemma Bind_unfold (lp : LogPoller) (e : eventBinding) (b : BoundContract) :
  Bind lp e b =
  match (Unregister lp e).2 with
  | Some err => ((Unregister lp e).1.1, e, Some err)
  | None =>
      let e1 := rebound e (HexToAddress (bcAddress b)) (bcPending b) in
      if registerCalled e then Register (Unregister lp e).1.1 e1
      else ((Unregister lp e).1.1, e1, None)
  end.
Proof.
  unfold Bind. pose proof (Unregister_binding lp e) as Hb.
  destruct (Unregister lp e) as [[lp1 e1] err]; simpl in *. subst e1.
  destruct err; done.
Qed.

End LifecycleFacts.

Lemma holds_false (lp : LogPoller) (name : string) :
  holds lp name = false <-> lpFilters lp !! name = None.
Proof.
  unfold holds. rewrite bool_decide_eq_false, <- eq_None_not_Some. done.
Qed.

Lemma holds_lookup (lp lp' : LogPoller) (name : string) :
  lpFilters lp' !! name = lpFilters lp !! name -> holds lp' name = holds lp name.
Proof. unfold holds. by intros ->. Qed.

(** The calls [Unregister] makes: the presence test, then at most the
    removal. *)
Lemma Unregister_calls (lp : LogPoller) (e : eventBinding) :
  lpCalls (Unregister lp e).1.1 = lpCalls lp ++ [CallHasFilter (id e)] \/
  lpCalls (Unregister lp e).1.1 =
    lpCalls lp ++ [CallHasFilter (id e); CallUnregisterFilter (id e)].
Proof.
  unfold Unregister. unfold_lp.
  repeat case_match; simplify_eq; simpl; rewrite <- ?app_assoc; auto.
Qed.

Section Runs.

Context {parser : AddressParser}.

(** Without the latch and without a filter, an operation other than
    [Register] keeps both and asks the poller for no registration. *)
Lemma step_unrequested (s : LogPoller * eventBinding) (o : Op) :
  registerCalled s.2 = false -> lpFilters s.1 !! id s.2 = None ->
  o <> OpRegister ->
  registerCalled (step s o).2 = false /\ id (step s o).2 = id s.2 /\
  lpFilters (step s o).1 !! id s.2 = None /\
  exists cs, lpCalls (step s o).1 = lpCalls s.1 ++ cs /\
             forallb (fun c => negb (isRegisterFilter c)) cs = true.
Proof.
  destruct s as [lp e]; simpl. intros Hlatch Hnone Hop.
  assert (Hfil : lpFilters (Unregister lp e).1.1 !! id e = None).
  { destruct (Unregister_filters lp e) as [-> | ->]; [done|].
    apply lookup_delete_eq. }
  assert (Hcalls : exists cs,
    lpCalls (Unregister lp e).1.1 = lpCalls lp ++ cs /\
    forallb (fun c => negb (isRegisterFilter c)) cs = true).
  { destruct (Unregister_calls lp e) as [-> | ->]; eauto. }
  destruct o as [b| |]; [| done |]; simpl.
  - rewrite Bind_unfold, Hlatch.
    destruct (Unregister lp e).2; simpl; auto.
  - rewrite Unregister_binding. auto.
Qed.

Lemma run_unrequested (ops : list Op) :
  forall s : LogPoller * eventBinding,
  registerCalled s.2 = false -> lpFilters s.1 !! id s.2 = None ->
  Forall (fun o => o <> OpRegister) ops ->
  registerCalled (run ops s).2 = false /\ id (run ops s).2 = id s.2 /\
  lpFilters (run ops s).1 !! id s.2 = None /\
  exists cs, lpCalls (run ops s).1 = lpCalls s.1 ++ cs /\
             forallb (fun c => negb (isRegisterFilter c)) cs = true.
Proof.
  induction ops as [|o ops IH]; intros s Hlatch Hnone Hops; simpl.
  - split_and!; [done | done | done |]. exists []. by rewrite app_nil_r.
  - apply Forall_cons in Hops as [Ho Hops].
    destruct (step_unrequested s o Hlatch Hnone Ho)
      as (Hl1 & Hid1 & Hf1 & cs1 & Hc1 & Hn1).
    destruct (IH (step s o) Hl1 ltac:(by rewrite Hid1) Hops)
      as (Hl2 & Hid2 & Hf2 & cs2 & Hc2 & Hn2).
    unfold run in *. split_and!; [done | congruence | by rewrite <- Hid1 |].
    exists (cs1 ++ cs2). rewrite Hc2, Hc1, <- app_assoc. split; [done|].
    rewrite forallb_app, Hn1, Hn2. done.
Qed.

End Runs.

(** ** Error wrapping *)

Lemma HasPrefix_spec (p s : string) :
  HasPrefix s p = true <-> exists post, s = p +:+ post.
Proof.
  revert s; induction p as [|c p IH]; intros s; simpl.
  - split; [intros _; by exists s | done].
  - destruct s as [|d s]; simpl.
    + split; [done | intros [post [=]]].
    + rewrite andb_true_iff, bool_decide_eq_true, IH. split.
      * intros [-> [post ->]]. by exists post.
      * intros [post [= -> ->]]. eauto.
Qed.

Lemma Contains_spec (substr s : string) :
  Contains s substr = true <-> exists pre post, s = pre +:+ substr +:+ post.
Proof.
  induction s as [|d s IH]; simpl.
  - rewrite orb_false_r, HasPrefix_spec. split.
    + intros [post H]. by exists "", post.
    + intros (pre & post & H). destruct pre; simpl in H; [eauto | done].
  - rewrite orb_true_iff, HasPrefix_spec, IH. split.
    + intros [[post H] | (pre & post & ->)].
      * by exists "", post.
      * by exists (String d pre), post.
    + intros ([|c pre] & post & H); simpl in H.
      * left. eauto.
      * right. injection H as -> ->. eauto.
Qed.

Lemma Is_refl (e : error) : Is e e = true.
Proof. destruct e; cbn [Is]; by rewrite bool_decide_eq_true_2. Qed.

Lemma Is_ErrorfWW_l (e1 e2 : error) : Is (ErrorfWW e1 e2) e1 = true.
Proof. cbn [Is]. rewrite (Is_refl e1). by rewrite orb_true_r. Qed.

Lemma Is_ErrorfWW_r (e1 e2 : error) : Is (ErrorfWW e1 e2) e2 = true.
Proof. cbn [Is]. rewrite (Is_refl e2). by rewrite !orb_true_r. Qed.

Lemma Is_ErrorfW (e : error) (text : string) : Is (ErrorfW e text) e = true.
Proof. cbn [Is]. rewrite (Is_refl e). by rewrite orb_true_r. Qed.

(** ** Narrowing and selection: the statements *)

Lemma selectStep_panics (filters : list Hash) (use : option Log) (log : Log)
    (p : panic) :
  selectStep filters use log = Panics p <->
  (0 < compareLogs log use)%Z /\ matchesRemainingFilters log filters = Panics p.
Proof.
  unfold selectStep. case_bool_decide as Hcmp.
  - destruct (matchesRemainingFilters log filters) as [[|]|q]; split;
      try done; try (by intros [_ [=]]).
    + intros [= ->]. done.
    + intros [_ [= ->]]. done.
  - split; [done | intros [Hpos _]; done].
Qed.

Lemma selectStep_excluded (filters : list Hash) (use : option Log) (log : Log) :
  matchesRemainingFilters log filters = Returns false ->
  selectStep filters use log = Returns use.
Proof. unfold selectStep. intros ->. by case_bool_decide. Qed.

Lemma selectLoop_total (filters : list Hash) (logs : list Log) :
  forall use : option Log,
  Forall (narrowable filters) logs ->
  exists r, selectLoop filters use logs = Returns r.
Proof.
  induction logs as [|log rest IH]; intros use Hn; simpl; [eauto|].
  apply Forall_cons in Hn as [Hnl Hn].
  destruct (selectStep filters use log) as [use'|p] eqn:E; [by apply IH|].
  apply selectStep_panics in E as [_ E].
  destruct (narrowable_total _ _ Hnl) as [b Hb]. congruence.
Qed.

(** X27: narrowing returns true for a candidate if and only if, for every
    [i] below the number of remaining filters, its topic at slot [i + 2]
    equals the [i]-th remaining hash byte for byte.  It returns false
    exactly when one of these slots holds a different value; the loop then
    keeps its selection and goes on without an error.  Every candidate that
    carries a topic for each remaining filter and does not match is turned
    down in this way. *)
Theorem matchesRemainingFilters_retains_iff (log : Log) (filters : list Hash) :
  (matchesRemainingFilters log filters = Returns true <->
   forall i, i < length filters -> Topics log !! (i + 2) = filters !! i) /\
  (matchesRemainingFilters log filters = Returns false <->
   exists i f t, filters !! i = Some f /\ Topics log !! (i + 2) = Some t /\ f <> t) /\
  (forall use, matchesRemainingFilters log filters = Returns false ->
     selectStep filters use log = Returns use) /\
  (narrowable filters log -> ~ survives filters log ->
     matchesRemainingFilters log filters = Returns false).
Proof.
  unfold matchesRemainingFilters, survives. split_and!.
  - apply (matchesFrom_true filters (Topics log) 0).
  - apply (matchesFrom_false filters (Topics log) 0).
  - intros use Hm. by apply selectStep_excluded.
  - intros Hn Hs. destruct (narrowable_total _ _ Hn) as [[|] Hb]; done.
Qed.

Lemma matchesRemainingFilters_retains_iff_witness :
  matchesRemainingFilters Demo.log_20_other [Demo.second] = Returns false /\
  selectStep [Demo.second] (Some Demo.log_10_5) Demo.log_20_other
    = Returns (Some Demo.log_10_5).
Proof.
  pose proof (matchesRemainingFilters_retains_iff Demo.log_20_other [Demo.second])
    as (_ & _ & Hstep & Hfalse).
  assert (Hm : matchesRemainingFilters Demo.log_20_other [Demo.second]
               = Returns false).
  { apply Hfalse.
    - unfold narrowable. simpl. lia.
    - unfold survives. vm_compute. discriminate. }
  split; [exact Hm | exact (Hstep _ Hm)].
Defined.

(** C2 (a defect of the code): a candidate with the signature topic and one
    indexed topic does not match one remaining filter, so it is to be passed
    over without an error.  [matchesRemainingFilters] reads its slot 2
    without a look at the number of topics: the access is out of range, in
    the narrowing, in the step of the loop and in the loop, whatever the
    loop has selected before.  [decodeLog], which reads the topics of the
    same log, compares their number with the schema first and answers
    [ErrInvalidType]. *)
Lemma missing_slot_out_of_range :
  ~ (forall i, i < length [Demo.second] ->
       Topics Demo.log_short !! (i + 2) = [Demo.second] !! i) /\
  matchesRemainingFilters Demo.log_short [Demo.second] = Panics IndexOutOfRange /\
  matchesRemainingFilters Demo.log_short [Demo.second] <> Returns false /\
  selectStep [Demo.second] (Some Demo.log_10_2) Demo.log_short
    = Panics IndexOutOfRange /\
  selectLoop [Demo.second] None [Demo.log_10_2; Demo.log_short]
    = Panics IndexOutOfRange /\
  Demo.decode (Demo.binding true ["from"; "to"]) (Some Demo.log_short) []
    = Returns ([[x2a]],
               Some (ErrorfW ErrInvalidType "not enough topics to decode")).
Proof.
  split_and!; [| by vm_compute | by vm_compute | by vm_compute
               | by vm_compute | by vm_compute].
  intros H. specialize (H 0 ltac:(simpl; lia)). discriminate H.
Qed.

(** C9 (as amended): [matchesRemainingFilters] checks no bound.  Its topic
    access is out of range exactly when the slot of some remaining filter is
    missing on the log while the slots of all earlier filters hold equal
    values; the selection loop stops with that panic exactly when the
    candidate also compares newer than the current selection.  A candidate
    in which the slot of some remaining filter holds a different value is
    turned down, whatever its number of topics, and the loop keeps its
    selection.  When every candidate carries at least [k + 2] topics the
    loop returns. *)
Theorem narrowing_out_of_range_iff (log : Log) (filters : list Hash)
    (use : option Log) (logs : list Log) :
  (forall p, matchesRemainingFilters log filters = Panics p <->
     p = IndexOutOfRange /\
     exists j, j < length filters /\ Topics log !! (j + 2) = None /\
       forall j', j' < j -> Topics log !! (j' + 2) = filters !! j') /\
  (forall p, selectStep filters use log = Panics p <->
     (0 < compareLogs log use)%Z /\
     matchesRemainingFilters log filters = Panics p) /\
  (Forall (narrowable filters) logs ->
     exists r, selectLoop filters use logs = Returns r) /\
  ((exists j f t,
      filters !! j = Some f /\ Topics log !! (j + 2) = Some t /\ f <> t) ->
   matchesRemainingFilters log filters = Returns false /\
   selectStep filters use log = Returns use).
Proof.
  split_and!.
  - intros p. apply (matchesFrom_panics filters (Topics log) 0 p).
  - intros p. apply selectStep_panics.
  - apply selectLoop_total.
  - intros Hdiff.
    assert (Hm : matchesRemainingFilters log filters = Returns false)
      by (by apply (matchesFrom_false filters (Topics log) 0)).
    split; [done | by apply selectStep_excluded].
Qed.

Lemma narrowing_out_of_range_iff_witness :
  (exists r, selectLoop [Demo.second] None [Demo.log_10_2; Demo.log_20_other]
             = Returns r) /\
  matchesRemainingFilters Demo.log_20_other [Demo.second; Demo.third]
    = Returns false /\
  selectStep [Demo.second; Demo.third] None Demo.log_20_other = Returns None.
Proof.
  pose proof (narrowing_out_of_range_iff Demo.log_20_other
                [Demo.second; Demo.third] None
                [Demo.log_20_other]) as (_ & _ & _ & Hdiff).
  pose proof (narrowing_out_of_range_iff Demo.log_10_2 [Demo.second] None
                [Demo.log_10_2; Demo.log_20_other]) as (_ & _ & Htotal & _).
  split.
  - apply Htotal. repeat constructor; unfold narrowable; simpl; lia.
  - apply Hdiff. exists 0, Demo.second, Demo.other.
    split_and!; [reflexivity | reflexivity | discriminate].
Defined.

(** C9 as stated fails: a candidate with three topics under two remaining
    filters has fewer than [k + 2] topics, yet its first remaining slot
    differs, narrowing returns false and the candidate is passed over
    without a panic; under no remaining filter a log with the signature
    topic alone is retained. *)
Lemma short_candidate_excluded_silently :
  length (Topics Demo.log_20_other) < length [Demo.second; Demo.third] + 2 /\
  matchesRemainingFilters Demo.log_20_other [Demo.second; Demo.third]
    = Returns false /\
  selectLoop [Demo.second; Demo.third] None [Demo.log_20_other] = Returns None /\
  length (Topics Demo.log_bare) < length (@nil Hash) + 2 /\
  matchesRemainingFilters Demo.log_bare [] = Returns true.
Proof. split_and!; [simpl; lia | by vm_compute | by vm_compute | simpl; lia | done]. Qed.

(** ** The filter life cycle: the statements *)

(** C8: for two bindings with distinct ids, whatever their event signature
    and address, [Register] and [Unregister] on one leave the filter stored
    under the id of the other as it is: each changes the filters at most at
    the id of its own binding, by adding resp. removing that one filter. *)
Theorem Register_Unregister_frame (lp : LogPoller) (e1 e2 : eventBinding) :
  (lpFilters (Register lp e1).1.1 = lpFilters lp \/
   lpFilters (Register lp e1).1.1 =
     <[id e1 := mkFilter (id e1) [hash e1] [address e1]]> (lpFilters lp)) /\
  (lpFilters (Unregister lp e1).1.1 = lpFilters lp \/
   lpFilters (Unregister lp e1).1.1 = delete (id e1) (lpFilters lp)) /\
  (id e1 <> id e2 ->
   lpFilters (Register lp e1).1.1 !! id e2 = lpFilters lp !! id e2 /\
   lpFilters (Unregister lp e1).1.1 !! id e2 = lpFilters lp !! id e2 /\
   holds (Register lp e1).1.1 (id e2) = holds lp (id e2) /\
   holds (Unregister lp e1).1.1 (id e2) = holds lp (id e2)).
Proof.
  pose proof (Register_filters lp e1) as HR.
  pose proof (Unregister_filters lp e1) as HU.
  split_and!.
  - destruct HR as [HR | (_ & _ & HR)]; auto.
  - done.
  - intros Hne.
    assert (HR' : lpFilters (Register lp e1).1.1 !! id e2 = lpFilters lp !! id e2).
    { destruct HR as [-> | (_ & _ & ->)]; [done|]. by apply lookup_insert_ne. }
    assert (HU' : lpFilters (Unregister lp e1).1.1 !! id e2 = lpFilters lp !! id e2).
    { destruct HU as [-> | ->]; [done|]. by apply lookup_delete_ne. }
    split_and!; [done | done | by apply holds_lookup | by apply holds_lookup].
Qed.

Lemma Register_Unregister_frame_witness :
  let lp := (Register (Demo.poller None []) Demo.twin).1.1 in
  holds lp "binding-2" = true /\
  holds (Register lp (Demo.binding true ["from"])).1.1 "binding-2" = true /\
  holds (Unregister lp (Demo.binding true ["from"])).1.1 "binding-2" = true.
Proof.
  intros lp.
  destruct (Register_Unregister_frame lp (Demo.binding true ["from"]) Demo.twin)
    as (_ & _ & Hframe).
  destruct Hframe as (_ & _ & HR & HU); [simpl; discriminate|].
  assert (Hheld : holds lp (id Demo.twin) = true) by (by vm_compute).
  rewrite Hheld in HR, HU. split_and!; [exact Hheld | exact HR | exact HU].
Defined.

Section LifecycleStatements.

Context {parser : AddressParser}.


(** C7: starting from a binding whose latch is not set and whose id has no
    filter at the poller, after any number of operations of a sequence of
    [Bind] and [Unregister] the poller holds no filter under the binding's
    id, and no registration was asked of the poller on the way. *)
Theorem no_filter_without_Register (ops : list Op) (lp : LogPoller)
    (e : eventBinding) :
  registerCalled e = false -> holds lp (id e) = false ->
  Forall (fun o => o <> OpRegister) ops ->
  forall n,
    holds (run (take n ops) (lp, e)).1 (id e) = false /\
    exists cs, lpCalls (run (take n ops) (lp, e)).1 = lpCalls lp ++ cs /\
               forallb (fun c => negb (isRegisterFilter c)) cs = true.
Proof.
  intros Hlatch Hnone Hops n. apply holds_false in Hnone.
  destruct (run_unrequested (take n ops) (lp, e) Hlatch Hnone)
    as (_ & _ & Hf & Hcs); [by apply Forall_take|].
  split; [by apply holds_false | done].
Qed.

(** C10: [Register] on a binding that is not bound succeeds, calls the
    poller not at all and so registers nothing, and sets the latch.  The
    next [Bind] of that binding, the poller holding no filter under its id,
    tests for the filter twice and then asks the poller to register a filter
    under the binding's id for the new address; the filter is held
    afterwards unless the poller fails that call.  When the poller does not
    fail at all, the filter is held afterwards whatever was held before. *)
Theorem Register_unbound_latches (lp : LogPoller) (e : eventBinding)
    (b : BoundContract) :
  bound e = false ->
  let f := mkFilter (id e) [hash e] [HexToAddress (bcAddress b)] in
  Register lp e = (lp, markRegisterCalled e, None) /\
  registerCalled (markRegisterCalled e) = true /\
  bound (markRegisterCalled e) = false /\
  (forall lp', holds lp' (id e) = false ->
     lpCalls (Bind lp' (markRegisterCalled e) b).1.1 =
       lpCalls lp' ++
       [CallHasFilter (id e); CallHasFilter (id e); CallRegisterFilter f] /\
     bound (Bind lp' (markRegisterCalled e) b).1.2 = true /\
     match head (lpFaults lp') with
     | Some (Some err) =>
         (Bind lp' (markRegisterCalled e) b).2 = Some (ErrorfWW ErrInternal err) /\
         lpFilters (Bind lp' (markRegisterCalled e) b).1.1 !! id e = None
     | _ =>
         (Bind lp' (markRegisterCalled e) b).2 = None /\
         lpFilters (Bind lp' (markRegisterCalled e) b).1.1 !! id e = Some f
     end) /\
  (forall lp', lpFaults lp' = [] ->
     (Bind lp' (markRegisterCalled e) b).2 = None /\
     lpFilters (Bind lp' (markRegisterCalled e) b).1.1 !! id e = Some f /\
     bound (Bind lp' (markRegisterCalled e) b).1.2 = true).
Proof.
  intros Hb f. split_and!.
  - unfold Register. simpl. by rewrite Hb.
  - done.
  - done.
  - intros lp' Hnone. apply holds_false in Hnone.
    rewrite Bind_unfold, (Unregister_absent lp' (markRegisterCalled e) Hnone).
    simpl registerCalled. cbv iota. cbv zeta. cbn [fst snd].
    set (lp1 := called (CallHasFilter (id (markRegisterCalled e))) lp').
    set (e1 := rebound (markRegisterCalled e) (HexToAddress (bcAddress b))
                 (bcPending b)).
    assert (Hn1 : lpFilters lp1 !! id e1 = None) by done.
    rewrite Register_binding, (Register_absent lp1 e1 eq_refl Hn1).
    split; [unfold lp1, called; simpl; by rewrite <- app_assoc|].
    split; [done|].
    pose proof (Register_absent_outcome lp1 e1 eq_refl Hn1) as Hout.
    change (lpFaults lp1) with (lpFaults lp') in Hout.
    destruct (head (lpFaults lp')) as [[err|]|]; destruct Hout as [-> ->];
      (split; [done|]); try done; apply lookup_insert_eq.
  - intros lp' Hf. destruct (Unregister_faults_nil lp' (markRegisterCalled e) Hf)
      as [Hok Hf1].
    pose proof (Unregister_ok lp' (markRegisterCalled e) Hok) as Hnone.
    rewrite Bind_unfold, Hok. simpl registerCalled. cbv iota. cbv zeta.
    set (lp1 := (Unregister lp' (markRegisterCalled e)).1.1) in *.
    set (e1 := rebound (markRegisterCalled e) (HexToAddress (bcAddress b))
                 (bcPending b)).
    destruct (Register_absent_ok lp1 e1 eq_refl Hnone Hf1) as [Hrok Hrf].
    rewrite Register_binding, Hrok, Hrf. split_and!; [done | | done].
    apply lookup_insert_eq.
Qed.

End LifecycleStatements.


Lemma no_filter_without_Register_witness :
  holds (run (parser := Demo.parser)
           [OpBind (mkBoundContract "0x01" "Feed" false); OpUnregister;
              OpBind (mkBoundContract "0x02" "Feed" true)]
           (Demo.poller None [], Demo.binding false ["from"])).1
        "binding-1" = false.
Proof.
  apply (no_filter_without_Register (parser := Demo.parser)
           [OpBind (mkBoundContract "0x01" "Feed" false); OpUnregister;
            OpBind (mkBoundContract "0x02" "Feed" true)]
           (Demo.poller None []) (Demo.binding false ["from"])
           eq_refl eq_refl ltac:(repeat constructor; discriminate) 3).
Defined.

Lemma Register_unbound_latches_witness :
  let e := Demo.binding false ["from"] in
  let lp := Demo.poller None [] in
  Register lp e = (lp, markRegisterCalled e, None) /\
  holds (Bind (parser := Demo.parser) lp (markRegisterCalled e)
           (mkBoundContract "0x01" "Feed" false)).1.1
        (id e) = true.
Proof.
  intros e lp.
  destruct (Register_unbound_latches (parser := Demo.parser) lp e
              (mkBoundContract "0x01" "Feed" false) eq_refl)
    as (HR & _ & _ & HB & _).
  destruct (HB lp eq_refl) as (_ & _ & _ & Hf).
  split; [exact HR|]. unfold holds. rewrite Hf. reflexivity.
Defined.

(** ** Reading the latest value: the statements *)

Section ReadsFacts.

Context {texts : SentinelTexts} {V : Type} {codec : RemoteCodec V}
  {modifier : Modifier V} {package : Package V}.

Lemma GetLatestValue_unbound (lp : LogPoller) (e : eventBinding) (params into : V) :
  bound e = false ->
  GetLatestValue lp e params into =
    (lp, Returns (into, Some (ErrorfW ErrInvalidType "event not bound"))).
Proof. intros Hb. unfold GetLatestValue. by rewrite Hb. Qed.

(** The path without filters: one call, then the decoding of its log. *)
Lemma GetLatestValue_unfiltered (lp : LogPoller) (e : eventBinding)
    (params into : V) :
  bound e = true -> length (Args (inputInfo e)) = 0 ->
  GetLatestValue lp e params into =
    (called (CallLatestLogByEventSigWithConfs (hash e) (address e) (confsOf e)) lp,
     match wrapInternalErr (lpLatestLog lp (hash e) (address e) (confsOf e)).2 with
     | Some err => Returns (into, Some err)
     | None =>
         decodeLog e (lpLatestLog lp (hash e) (address e) (confsOf e)).1 into
     end).
Proof.
  intros Hb Hn. unfold GetLatestValue, getLatestValueWithoutFilters.
  rewrite Hb, bool_decide_eq_true_2 by done. simpl. fold (confsOf e).
  destruct (lpLatestLog lp (hash e) (address e) (confsOf e)) as [log err]. simpl.
  by destruct (wrapInternalErr err).
Qed.

(** The filtered path: one call, with the first computed hash, then the
    selection among the candidates with the remaining ones. *)
Lemma GetLatestValue_filtered (lp : LogPoller) (e : eventBinding)
    (params into : V) (fai : Hash) (remaining : list Hash) :
  bound e = true -> length (Args (inputInfo e)) <> 0 ->
  computedFilters e params = Some (fai :: remaining) ->
  GetLatestValue lp e params into =
    (called (CallIndexedLogs (hash e) (address e) 1 [fai] (confsOf e)) lp,
     match lpIndexedLogs lp (hash e) (address e) 1 [fai] (confsOf e) with
     | (_, Some err) => Returns (into, wrapInternalErr (Some err))
     | (logs, None) =>
         match selectLoop remaining None logs with
         | Panics p => Panics p
         | Returns None =>
             Returns (into, Some (ErrorfW ErrNotFound "no events found"))
         | Returns (Some logToUse) => decodeLog e (Some logToUse) into
         end
     end).
Proof.
  intros Hb Hn Hf. unfold GetLatestValue, getLatestValueWithFilters.
  rewrite Hb, bool_decide_eq_false_2 by done. simpl. fold (confsOf e).
  unfold computedFilters in Hf.
  destruct (convertToOffChainType e params) as [offChain [err|]]; [done|].
  destruct (TransformForOnChain offChain "") as [checked [err|]]; [done|].
  destruct (encodeParams e checked) as [fs [err|]]; [done|].
  injection Hf as ->. unfold IndexedLogs.
  destruct (lpIndexedLogs lp (hash e) (address e) 1 [fai] (confsOf e))
    as [logs [err|]]; [done|].
  by destruct (selectLoop remaining None logs) as [[l|]|p].
Qed.

Lemma selected_decoded (lp : LogPoller) (e : eventBinding) (params into : V)
    (log : Log) :
  bound e = true -> selectedForDecoding lp e params log ->
  (GetLatestValue lp e params into).2 = decodeLog e (Some log) into.
Proof.
  intros Hb [[Hn Hl] | [Hn (fai & remaining & logs & Hf & Hl & Hs)]].
  - rewrite GetLatestValue_unfiltered by done. simpl. by rewrite Hl.
  - rewrite (GetLatestValue_filtered lp e params into fai remaining) by done.
    simpl. by rewrite Hl, Hs.
Qed.

Lemma decodeLog_few_topics (e : eventBinding) (log : Log) (into : V) :
  (Decode (Data log) into (WrapItemType (contractName e) (eventName e) false)).2
    = None ->
  length (Topics log) < length (Args (topicInfo e)) + 1 ->
  decodeLog e (Some log) into =
    Returns ((Decode (Data log) into
                (WrapItemType (contractName e) (eventName e) false)).1,
             Some (ErrorfW ErrInvalidType "not enough topics to decode")).
Proof.
  intros Hd Hlen. unfold decodeLog.
  destruct (Decode (Data log) into _) as [into1 err]. simpl in *. subst err.
  by rewrite bool_decide_eq_true_2.
Qed.

Lemma decodeLog_codec_error (e : eventBinding) (log : Log) (into : V)
    (err : error) :
  (Decode (Data log) into (WrapItemType (contractName e) (eventName e) false)).2
    = Some err ->
  decodeLog e (Some log) into =
    Returns ((Decode (Data log) into
                (WrapItemType (contractName e) (eventName e) false)).1,
             Some err).
Proof.
  intros Hd. unfold decodeLog.
  destruct (Decode (Data log) into _) as [into1 err']. simpl in *. by subst err'.
Qed.

End ReadsFacts.

Lemma selectLoop_selected (filters : list Hash) (logs : list Log) :
  forall (use r : option Log),
  selectLoop filters use logs = Returns r ->
  r = use \/ exists l, r = Some l /\ l ∈ logs /\ survives filters l.
Proof.
  induction logs as [|log rest IH]; intros use r; simpl.
  - intros [= <-]. by left.
  - destruct (selectStep filters use log) as [use'|p] eqn:E; [|done].
    intros Hr. destruct (IH use' r Hr) as [-> | (l & -> & Hin & Hs)].
    + unfold selectStep in E. case_bool_decide; [|left; congruence].
      destruct (matchesRemainingFilters log filters) as [[|]|q] eqn:Hm;
        [| left; congruence | done].
      injection E as <-. right. exists log.
      split; [done|]. split; [apply elem_of_cons; auto | done].
    + right. exists l. split; [done|]. split; [apply elem_of_cons; auto | done].
Qed.

Lemma survives_matchesAll (filters : list Hash) (l : Log) :
  survives filters l <-> matchesAll filters l.
Proof.
  unfold survives, matchesAll, matchesRemainingFilters.
  apply (matchesFrom_true filters (Topics l) 0).
Qed.

(** A loop that ends without a selection began without one and has met no
    candidate that passes the narrowing. *)
Lemma selectLoop_none (filters : list Hash) (logs : list Log) :
  forall use : option Log,
  selectLoop filters use logs = Returns None ->
  use = None /\ forall l, l ∈ logs -> ~ survives filters l.
Proof.
  induction logs as [|log rest IH]; intros use; simpl.
  - intros [= ->]. split; [done|]. intros l Hin. by apply elem_of_nil in Hin.
  - destruct (selectStep filters use log) as [use'|p] eqn:E; [|done].
    intros Hr. destruct (IH use' Hr) as [-> Hrest].
    unfold selectStep in E. case_bool_decide as Hcmp.
    + destruct (matchesRemainingFilters log filters) as [[|]|q] eqn:Hm;
        [done | | done].
      injection E as ->. split; [done|]. intros l Hin.
      apply elem_of_cons in Hin as [-> | Hin]; [|by apply Hrest].
      unfold survives. congruence.
    + injection E as ->. simpl in Hcmp. lia.
Qed.

(** A loop stops out of range only at a candidate with fewer topics than
    remaining filters plus two. *)
Lemma selectLoop_panics (filters : list Hash) (logs : list Log) (p : panic) :
  forall use : option Log,
  selectLoop filters use logs = Panics p ->
  p = IndexOutOfRange /\
  exists l, l ∈ logs /\ length (Topics l) < length filters + 2.
Proof.
  induction logs as [|log rest IH]; intros use; simpl; [done|].
  destruct (selectStep filters use log) as [use'|q] eqn:E.
  - intros Hr. destruct (IH use' Hr) as (-> & l & Hin & Hlen).
    split; [done|]. exists l. split; [apply elem_of_cons; auto | done].
  - intros [= ->]. apply selectStep_panics in E as [_ E].
    apply (matchesFrom_panics filters (Topics log) 0 p) in E
      as (-> & j & Hj & Hnone & _).
    split; [done|]. exists log. split; [apply elem_of_cons; auto|].
    apply lookup_ge_None in Hnone. simpl in Hnone. lia.
Qed.

(** The three ways the selection loop ends. *)
Lemma selectLoop_outcome (filters : list Hash) (logs : list Log) :
  (exists l, selectLoop filters None logs = Returns (Some l) /\
     l ∈ logs /\ matchesAll filters l) \/
  (selectLoop filters None logs = Returns None /\
     forall l, l ∈ logs -> ~ matchesAll filters l) \/
  (selectLoop filters None logs = Panics IndexOutOfRange /\
     exists l, l ∈ logs /\ length (Topics l) < length filters + 2).
Proof.
  destruct (selectLoop filters None logs) as [[l|]|p] eqn:Hsel.
  - left. exists l. split; [done|].
    destruct (selectLoop_selected filters logs None (Some l) Hsel)
      as [[=] | (l' & [= <-] & Hin & Hs)].
    split; [done | by apply survives_matchesAll].
  - right; left. split; [done|]. intros l Hin Hm.
    apply selectLoop_none in Hsel as [_ Hnone].
    apply (Hnone l Hin). by apply survives_matchesAll.
  - right; right. apply selectLoop_panics in Hsel as [-> Hex]. done.
Qed.

Section ErrorStatements.

Context {texts : SentinelTexts}.

(** C6: [wrapInternalErr] maps nil to nil; an error whose message mentions
    "not found" or "no rows" becomes an error that wraps [ErrNotFound] and
    the error itself; any other error becomes an error that wraps
    [ErrInternal] and the error itself.  The error given is always among the
    errors the result wraps. *)
Theorem wrapInternalErr_policy (e : error) :
  wrapInternalErr None = None /\
  (mentions (Error_ e) "not found" \/ mentions (Error_ e) "no rows" ->
   wrapInternalErr (Some e) = Some (ErrorfWW ErrNotFound e)) /\
  (~ mentions (Error_ e) "not found" -> ~ mentions (Error_ e) "no rows" ->
   wrapInternalErr (Some e) = Some (ErrorfWW ErrInternal e)) /\
  (exists r, wrapInternalErr (Some e) = Some r /\ e ∈ Unwrap r) /\
  (forall r, wrapInternalErr (Some e) = Some r ->
     Is r e = true /\ (Is r ErrNotFound = true \/ Is r ErrInternal = true)).
Proof.
  unfold mentions. split_and!.
  - done.
  - intros Hm. simpl.
    destruct Hm as [Hm | Hm]; apply Contains_spec in Hm; rewrite Hm;
      by rewrite ?orb_true_r.
  - intros Hn1 Hn2. simpl.
    destruct (Contains (Error_ e) "not found") eqn:E1.
    { exfalso. by apply Hn1, Contains_spec. }
    destruct (Contains (Error_ e) "no rows") eqn:E2.
    { exfalso. by apply Hn2, Contains_spec. }
    done.
  - simpl. destruct (_ || _); eexists; (split; [done|]); simpl; set_solver.
  - intros r. simpl. destruct (_ || _); intros [= <-].
    + split; [apply Is_ErrorfWW_r | left; apply Is_ErrorfWW_l].
    + split; [apply Is_ErrorfWW_r | right; apply Is_ErrorfWW_l].
Qed.

End ErrorStatements.

Lemma wrapInternalErr_policy_witness :
  wrapInternalErr (texts := Demo.texts) (Some (ErrorNew "sql: no rows in result set"))
  = Some (ErrorfWW ErrNotFound (ErrorNew "sql: no rows in result set")) /\
  wrapInternalErr (texts := Demo.texts) (Some (ErrorNew "connection refused"))
  = Some (ErrorfWW ErrInternal (ErrorNew "connection refused")).
Proof.
  split.
  - apply (wrapInternalErr_policy (texts := Demo.texts)
             (ErrorNew "sql: no rows in result set")).
    right. exists "sql: ", " in result set". reflexivity.
  - apply (wrapInternalErr_policy (texts := Demo.texts)
             (ErrorNew "connection refused")).
    + intros Hm. apply Contains_spec in Hm. vm_compute in Hm. discriminate.
    + intros Hm. apply Contains_spec in Hm. vm_compute in Hm. discriminate.
Defined.

Section ReadsStatements.

Context {texts : SentinelTexts} {V : Type} {codec : RemoteCodec V}
  {modifier : Modifier V} {package : Package V}.

(** X26: on the filtered path, with candidates whose block numbers and log
    indices are counted from zero and which carry a topic for every
    remaining filter: if no candidate survives narrowing the read fails with
    an error wrapping [ErrNotFound]; otherwise the log handed to the decoder
    is a surviving candidate whose (block number, log index) pair no
    surviving candidate exceeds in the lexicographic order. *)
Theorem GetLatestValue_selects_latest (lp : LogPoller) (e : eventBinding)
    (params into : V) (fai : Hash) (remaining : list Hash) (logs : list Log) :
  bound e = true -> length (Args (inputInfo e)) <> 0 ->
  computedFilters e params = Some (fai :: remaining) ->
  lpIndexedLogs lp (hash e) (address e) 1 [fai] (confsOf e) = (logs, None) ->
  Forall wf_log logs -> Forall (narrowable remaining) logs ->
  ((forall l, l ∈ logs -> ~ survives remaining l) ->
   (GetLatestValue lp e params into).2 =
     Returns (into, Some (ErrorfW ErrNotFound "no events found")) /\
   Is (ErrorfW ErrNotFound "no events found") ErrNotFound = true) /\
  ((exists l0, l0 ∈ logs /\ survives remaining l0) ->
   exists l, l ∈ logs /\ survives remaining l /\
     (forall l', l' ∈ logs -> survives remaining l' -> key_le l' l) /\
     (GetLatestValue lp e params into).2 = decodeLog e (Some l) into).
Proof.
  intros Hb Hn Hf Hl Hwf Hnar.
  rewrite (GetLatestValue_filtered lp e params into fai remaining) by done.
  simpl. rewrite Hl.
  destruct (selectLoop_latest remaining logs Hwf Hnar)
    as [[Hsel Hnone] | (l & Hsel & Hin & Hs & Hmax)]; rewrite Hsel.
  - split.
    + intros _. split; done.
    + intros (l0 & Hin0 & Hs0). by destruct (Hnone l0 Hin0).
  - split.
    + intros Hnone. by destruct (Hnone l Hin).
    + intros _. exists l. done.
Qed.

(** C4 (as amended): a read on a binding that is not bound returns an error
    wrapping [ErrInvalidType] and leaves the poller as it was, without a
    call.  On a bound binding, when the log handed to the decoder carries
    fewer topics than the topic schema has arguments plus one and the codec
    has decoded the data payload, the read returns an error wrapping
    [ErrInvalidType]; when the codec fails on the payload, the read returns
    the codec's error, whatever the number of topics. *)
Theorem GetLatestValue_InvalidType (lp : LogPoller) (e : eventBinding)
    (params into : V) (log : Log) :
  (bound e = false ->
   GetLatestValue lp e params into =
     (lp, Returns (into, Some (ErrorfW ErrInvalidType "event not bound"))) /\
   Is (ErrorfW ErrInvalidType "event not bound") ErrInvalidType = true) /\
  (bound e = true -> selectedForDecoding lp e params log ->
   let decoded :=
     Decode (Data log) into (WrapItemType (contractName e) (eventName e) false) in
   (length (Topics log) < length (Args (topicInfo e)) + 1 ->
    decoded.2 = None ->
    exists err, (GetLatestValue lp e params into).2 = Returns (decoded.1, Some err) /\
                Is err ErrInvalidType = true) /\
   (forall err, decoded.2 = Some err ->
    (GetLatestValue lp e params into).2 = Returns (decoded.1, Some err))).
Proof.
  split.
  - intros Hb. split; [by apply GetLatestValue_unbound | apply Is_ErrorfW].
  - intros Hb Hsel decoded.
    rewrite (selected_decoded lp e params into log Hb Hsel). split.
    + intros Hlen Hd. eexists. split; [by apply decodeLog_few_topics|].
      apply Is_ErrorfW.
    + intros err Hd. by apply decodeLog_codec_error.
Qed.

(** C5: on the filtered path the read makes one call on the poller,
    [IndexedLogs] with the event signature hash, the bound address, topic
    slot 1, the first computed hash alone and the confirmation policy of the
    pending flag; the filters stay as they are, and the remaining hashes are
    in no call.  An error of the poller ends the read.  Otherwise the
    remaining hashes are applied to the candidates returned: the read
    decodes a returned candidate whose topics from slot 2 on are the
    remaining hashes, or it answers [ErrNotFound] and no returned candidate
    has these topics, or it stops out of range and some candidate has fewer
    topics than there are remaining hashes plus two.  When every candidate
    carries that many topics, the read decodes a matching candidate if there
    is one and answers [ErrNotFound] if there is none. *)
Theorem GetLatestValue_native_and_client_filters (lp : LogPoller)
    (e : eventBinding) (params into : V) (fai : Hash) (remaining : list Hash) :
  bound e = true -> length (Args (inputInfo e)) <> 0 ->
  computedFilters e params = Some (fai :: remaining) ->
  lpCalls (GetLatestValue lp e params into).1 =
    lpCalls lp ++
    [CallIndexedLogs (hash e) (address e) 1 [fai]
       (if pending e then Unconfirmed else Finalized)] /\
  lpFilters (GetLatestValue lp e params into).1 = lpFilters lp /\
  (forall logs err,
     lpIndexedLogs lp (hash e) (address e) 1 [fai] (confsOf e) = (logs, Some err) ->
     (GetLatestValue lp e params into).2 =
       Returns (into, wrapInternalErr (Some err))) /\
  (forall logs,
     lpIndexedLogs lp (hash e) (address e) 1 [fai] (confsOf e) = (logs, None) ->
     ((exists l, l ∈ logs /\ matchesAll remaining l /\
         (GetLatestValue lp e params into).2 = decodeLog e (Some l) into) \/
      ((forall l, l ∈ logs -> ~ matchesAll remaining l) /\
         (GetLatestValue lp e params into).2 =
           Returns (into, Some (ErrorfW ErrNotFound "no events found"))) \/
      ((exists l, l ∈ logs /\ length (Topics l) < length remaining + 2) /\
         (GetLatestValue lp e params into).2 = Panics IndexOutOfRange)) /\
     (Forall (narrowable remaining) logs ->
        ((exists l, l ∈ logs /\ matchesAll remaining l) ->
         exists l, l ∈ logs /\ matchesAll remaining l /\
           (GetLatestValue lp e params into).2 = decodeLog e (Some l) into) /\
        ((forall l, l ∈ logs -> ~ matchesAll remaining l) ->
         (GetLatestValue lp e params into).2 =
           Returns (into, Some (ErrorfW ErrNotFound "no events found"))))).
Proof.
  intros Hb Hn Hf.
  rewrite (GetLatestValue_filtered lp e params into fai remaining) by done.
  simpl. split_and!; [done | done | |].
  - intros logs err ->. done.
  - intros logs ->.
    destruct (selectLoop_outcome remaining logs)
      as [(l & -> & Hin & Hm) | [[-> Hnone] | [-> (l & Hin & Hlen)]]].
    + split; [left; by exists l|]. intros _. split.
      * intros _. by exists l.
      * intros Hnone. by destruct (Hnone l Hin).
    + split; [right; left; done|]. intros _. split.
      * intros (l & Hin & Hm). by destruct (Hnone l Hin).
      * done.
    + split; [right; right; split; [by exists l | done]|].
      intros Hnar. exfalso.
      rewrite Forall_forall in Hnar. specialize (Hnar l Hin).
      unfold narrowable in Hnar. lia.
Qed.

End ReadsStatements.

(** ** The statements on concrete reads *)

(** The two examples of the selection: within block 10 the log with index 5
    is chosen over the one with index 2, and block 12 over block 11, in
    whichever order the poller returns them. *)
Example selectLoop_same_block :
  selectLoop [Demo.second] None [Demo.log_10_2; Demo.log_10_5]
    = Returns (Some Demo.log_10_5) /\
  selectLoop [Demo.second] None [Demo.log_10_5; Demo.log_10_2]
    = Returns (Some Demo.log_10_5).
Proof. split; by vm_compute. Qed.

Example selectLoop_later_block :
  selectLoop [Demo.second] None [Demo.log_11_0; Demo.log_12_0]
    = Returns (Some Demo.log_12_0) /\
  selectLoop [Demo.second] None [Demo.log_12_0; Demo.log_11_0]
    = Returns (Some Demo.log_12_0).
Proof. split; by vm_compute. Qed.

(** Of three candidates only one of which matches, that one is decoded. *)
Example selectLoop_only_match :
  selectLoop [Demo.second] None
    [Demo.log_20_other; Demo.log_10_2; Demo.logAt 30 1 Demo.third]
    = Returns (Some Demo.log_10_2).
Proof. by vm_compute. Qed.

Lemma GetLatestValue_selects_latest_witness :
  (Demo.read
     (Demo.poller None
        [mkLog 10 5 [Demo.sigHash; Demo.first; Demo.second] [x05];
         mkLog 20 0 [Demo.sigHash; Demo.first; Demo.other] [x14];
         mkLog 10 2 [Demo.sigHash; Demo.first; Demo.second] [x02]])
     (Demo.binding true ["from"; "to"]) [Demo.first; Demo.second] []).2
  = Returns ([[x05]; Demo.first; Demo.second], None) /\
  (Demo.read
     (Demo.poller None
        [mkLog 11 7 [Demo.sigHash; Demo.first; Demo.second] [x0b];
         mkLog 12 0 [Demo.sigHash; Demo.first; Demo.second] [x0c]])
     (Demo.binding true ["from"; "to"]) [Demo.first; Demo.second] []).2
  = Returns ([[x0c]; Demo.first; Demo.second], None) /\
  (Demo.read (Demo.poller None [Demo.log_20_other])
     (Demo.binding true ["from"; "to"]) [Demo.first; Demo.second] []).2
  = Returns ([], Some (ErrorfW ErrNotFound "no events found")).
Proof.
  split_and!.
  - destruct (GetLatestValue_selects_latest (texts := Demo.texts)
                (codec := Demo.codec) (modifier := Demo.modifier)
                (package := Demo.package)
                (Demo.poller None
                   [mkLog 10 5 [Demo.sigHash; Demo.first; Demo.second] [x05];
                    mkLog 20 0 [Demo.sigHash; Demo.first; Demo.other] [x14];
                    mkLog 10 2 [Demo.sigHash; Demo.first; Demo.second] [x02]])
                (Demo.binding true ["from"; "to"]) [Demo.first; Demo.second] []
                Demo.first [Demo.second] _
                eq_refl ltac:(simpl; lia) eq_refl eq_refl
                ltac:(candidates_ok) ltac:(candidates_ok))
      as [_ Hsome].
    destruct Hsome as (l & Hin & Hs & Hmax & Hread).
    { eexists. split; [apply elem_of_cons; left; reflexivity | by vm_compute]. }
    rewrite Hread.
    assert (Hle : key_le
                    (mkLog 10 5 [Demo.sigHash; Demo.first; Demo.second] [x05]) l).
    { apply Hmax; [rewrite !elem_of_cons; auto | by vm_compute]. }
    rewrite !elem_of_cons in Hin. destruct Hin as [-> | [-> | [-> | Hin]]].
    + reflexivity.
    + exfalso. unfold survives in Hs. vm_compute in Hs. discriminate Hs.
    + exfalso. unfold key_le in Hle. simpl in Hle. lia.
    + by apply elem_of_nil in Hin.
  - destruct (GetLatestValue_selects_latest (texts := Demo.texts)
                (codec := Demo.codec) (modifier := Demo.modifier)
                (package := Demo.package)
                (Demo.poller None
                   [mkLog 11 7 [Demo.sigHash; Demo.first; Demo.second] [x0b];
                    mkLog 12 0 [Demo.sigHash; Demo.first; Demo.second] [x0c]])
                (Demo.binding true ["from"; "to"]) [Demo.first; Demo.second] []
                Demo.first [Demo.second] _
                eq_refl ltac:(simpl; lia) eq_refl eq_refl
                ltac:(candidates_ok) ltac:(candidates_ok))
      as [_ Hsome].
    destruct Hsome as (l & Hin & _ & Hmax & Hread).
    { eexists. split; [apply elem_of_cons; left; reflexivity | by vm_compute]. }
    rewrite Hread.
    assert (Hle : key_le
                    (mkLog 12 0 [Demo.sigHash; Demo.first; Demo.second] [x0c]) l).
    { apply Hmax; [rewrite !elem_of_cons; auto | by vm_compute]. }
    rewrite !elem_of_cons in Hin. destruct Hin as [-> | [-> | Hin]].
    + exfalso. unfold key_le in Hle. simpl in Hle. lia.
    + reflexivity.
    + by apply elem_of_nil in Hin.
  - apply (GetLatestValue_selects_latest (texts := Demo.texts)
                (codec := Demo.codec) (modifier := Demo.modifier)
                (package := Demo.package)
             (Demo.poller None [Demo.log_20_other])
             (Demo.binding true ["from"; "to"]) [Demo.first; Demo.second] []
             Demo.first [Demo.second] [Demo.log_20_other]);
      [reflexivity | simpl; lia | reflexivity | reflexivity
      | candidates_ok | candidates_ok |].
    intros l Hin. apply list_elem_of_singleton in Hin as ->.
    unfold survives. vm_compute. discriminate.
Defined.

(** Why the block numbers are asked to be counted from zero: with a block
    number below zero the subtraction of [compareLogs] wraps around, and
    the surviving candidate of the smaller block is the one selected. *)
Example selectLoop_wraps_around :
  survives [Demo.second] Demo.log_far_above /\
  key_lt Demo.log_far_below Demo.log_far_above /\
  selectLoop [Demo.second] None [Demo.log_far_below; Demo.log_far_above]
  = Returns (Some Demo.log_far_below).
Proof. split_and!; [by vm_compute | left; simpl; lia | by vm_compute]. Qed.

(** C1 (a defect of the code): the poller returns one candidate, which
    carries the signature topic and one indexed topic, while one computed
    hash is held back.  No candidate passes the narrowing, so the read is
    to answer [ErrNotFound]; it stops instead with an index out of range,
    at the topic access of [matchesRemainingFilters], which does not look
    at the number of topics.  [decodeLog], which reads the topics of the
    same log, compares their number with the schema first and answers
    [ErrInvalidType]. *)
Theorem GetLatestValue_no_survivor_out_of_range :
  let e := Demo.binding true ["from"; "to"] in
  let lp := Demo.poller None [Demo.log_short] in
  computedFilters (codec := Demo.codec) (modifier := Demo.modifier)
    (package := Demo.package) e [Demo.first; Demo.second]
  = Some [Demo.first; Demo.second] /\
  lpIndexedLogs lp (hash e) (address e) 1 [Demo.first] Finalized
  = ([Demo.log_short], None) /\
  (forall l, l ∈ [Demo.log_short] -> ~ matchesAll [Demo.second] l) /\
  (Demo.read lp e [Demo.first; Demo.second] []).2 = Panics IndexOutOfRange /\
  (Demo.read lp e [Demo.first; Demo.second] []).2
  <> Returns ([], Some (ErrorfW ErrNotFound "no events found")) /\
  Demo.decode e (Some Demo.log_short) []
  = Returns ([[x2a]],
             Some (ErrorfW ErrInvalidType "not enough topics to decode")).
Proof.
  intros e lp. split_and!.
  - reflexivity.
  - reflexivity.
  - intros l Hin Hm. apply list_elem_of_singleton in Hin as ->.
    specialize (Hm 0 ltac:(simpl; lia)). discriminate Hm.
  - by vm_compute.
  - by vm_compute.
  - by vm_compute.
Qed.

Lemma GetLatestValue_InvalidType_witness :
  Demo.read (Demo.poller None []) (Demo.binding false ["from"]) [] []
  = (Demo.poller None [],
     Returns ([], Some (ErrorfW ErrInvalidType "event not bound"))) /\
  exists err,
    (Demo.read (Demo.poller (Some Demo.log_bare) []) (Demo.binding true []) [] []).2
    = Returns ([[x2a]], Some err) /\ Is err ErrInvalidType = true.
Proof.
  split.
  - apply (GetLatestValue_InvalidType (texts := Demo.texts)
                (codec := Demo.codec) (modifier := Demo.modifier)
                (package := Demo.package)
             (Demo.poller None []) (Demo.binding false ["from"]) [] []
             Demo.log_bare).
    reflexivity.
  - apply (GetLatestValue_InvalidType (texts := Demo.texts)
                (codec := Demo.codec) (modifier := Demo.modifier)
                (package := Demo.package)
             (Demo.poller (Some Demo.log_bare) []) (Demo.binding true []) [] []
             Demo.log_bare).
    + reflexivity.
    + left. split; reflexivity.
    + simpl. lia.
    + reflexivity.
Defined.

(** C4 as stated fails: the selected log carries one topic where the topic
    schema asks for three, the codec fails on the data payload, and the read
    returns the codec's error, which does not wrap [ErrInvalidType]. *)
Lemma few_topics_codec_error :
  let e := Demo.binding true [] in
  let lp := Demo.poller (Some Demo.log_bare) [] in
  bound e = true /\
  selectedForDecoding (codec := Demo.failingCodec) (modifier := Demo.modifier)
    (package := Demo.package) lp e [] Demo.log_bare /\
  length (Topics Demo.log_bare) < length (Args (topicInfo e)) + 1 /\
  exists err,
    (GetLatestValue (texts := Demo.texts) (codec := Demo.failingCodec)
       (modifier := Demo.modifier) (package := Demo.package) lp e [] []).2
    = Returns ([], Some err) /\
    Is err ErrInvalidType = false.
Proof.
  intros e lp. split_and!.
  - reflexivity.
  - left. split; reflexivity.
  - simpl. lia.
  - exists (ErrorfW ErrInternal "unexpected decode failure").
    split; by vm_compute.
Qed.

Lemma GetLatestValue_native_and_client_filters_witness :
  let lp := Demo.poller None [Demo.log_10_2; Demo.log_20_other] in
  let e := Demo.binding true ["from"; "to"] in
  lpCalls (Demo.read lp e [Demo.first; Demo.second] []).1
  = [CallIndexedLogs Demo.sigHash (repeat x00 20) 1 [Demo.first] Finalized] /\
  (Demo.read lp e [Demo.first; Demo.second] []).2
  = Returns ([[x2a]; Demo.first; Demo.second], None) /\
  (Demo.read lp e [Demo.first; Demo.second] []).2
  <> Demo.decode e (Some Demo.log_20_other) [].
Proof.
  intros lp e.
  destruct (GetLatestValue_native_and_client_filters (texts := Demo.texts)
              (codec := Demo.codec) (modifier := Demo.modifier)
              (package := Demo.package)
              lp e [Demo.first; Demo.second] [] Demo.first [Demo.second]
              eq_refl ltac:(simpl; lia) eq_refl)
    as (Hcalls & _ & _ & Hlogs).
  destruct (Hlogs [Demo.log_10_2; Demo.log_20_other] eq_refl) as [_ Hnar].
  destruct (Hnar ltac:(candidates_ok)) as [Hsome _].
  destruct Hsome as (l & Hin & Hm & Hread).
  { exists Demo.log_10_2. split; [rewrite !elem_of_cons; auto|].
    intros [|i] Hi; [reflexivity | simpl in Hi; lia]. }
  assert (Hl : l = Demo.log_10_2).
  { apply elem_of_cons in Hin as [-> | Hin]; [done|].
    apply list_elem_of_singleton in Hin as ->.
    specialize (Hm 0 ltac:(simpl; lia)). discriminate Hm. }
  subst l. split_and!; [exact Hcalls | by rewrite Hread | rewrite Hread; discriminate].
Defined.

(** * Further properties of the binding *)

(** ** Comparison and selection *)

(** X1: for two logs with block numbers and log indices counted from zero,
    the sign of [compareLogs] is the three-way comparison of the
    (block number, log index) pairs: positive when the first log is the
    newer one, negative when it is the older one, zero when the pairs are
    equal; and swapping the logs negates the result. *)
Theorem compareLogs_three_way (a b : Log) :
  wf_log a -> wf_log b ->
  ((0 < compareLogs a (Some b))%Z <-> key_lt b a) /\
  ((compareLogs a (Some b) < 0)%Z <-> key_lt a b) /\
  (compareLogs a (Some b) = 0%Z <->
     BlockNumber a = BlockNumber b /\ LogIndex a = LogIndex b) /\
  compareLogs b (Some a) = (- compareLogs a (Some b))%Z.
Proof.
  unfold wf_log, compareLogs, key_lt. intros [Hb Hi] [Hb' Hi'].
  repeat case_bool_decide;
    rewrite !int64_small by (unfold is_int64; lia); lia.
Qed.

Lemma compareLogs_three_way_witness :
  (0 < compareLogs Demo.log_10_5 (Some Demo.log_10_2))%Z /\
  (compareLogs Demo.log_11_0 (Some Demo.log_12_0) < 0)%Z.
Proof.
  split.
  - apply (compareLogs_three_way Demo.log_10_5 Demo.log_10_2);
      [unfold wf_log; simpl; lia | unfold wf_log; simpl; lia |].
    right. simpl. lia.
  - apply (compareLogs_three_way Demo.log_11_0 Demo.log_12_0);
      [unfold wf_log; simpl; lia | unfold wf_log; simpl; lia |].
    left. simpl. lia.
Defined.

Lemma key_lt_trans (a b c : Log) : key_lt a b -> key_lt b c -> key_lt a c.
Proof. unfold key_lt. lia. Qed.

Lemma selectStep_changes (filters : list Hash) (use r : option Log) (log : Log) :
  selectStep filters use log = Returns r ->
  r = use \/
  (r = Some log /\ survives filters log /\ (0 < compareLogs log use)%Z).
Proof.
  unfold selectStep, survives. case_bool_decide as Hcmp.
  - destruct (matchesRemainingFilters log filters) as [[|]|p]; intros [= <-]; auto.
  - intros [= <-]. auto.
Qed.

Lemma selectLoop_strict (filters : list Hash) (logs : list Log) :
  forall (u : Log) (r : option Log),
  wf_log u -> Forall wf_log logs ->
  selectLoop filters (Some u) logs = Returns r ->
  r = Some u \/ exists l, r = Some l /\ l ∈ logs /\ key_lt u l.
Proof.
  induction logs as [|log rest IH]; intros u r Hu Hwf; simpl.
  - intros [= <-]. by left.
  - apply Forall_cons in Hwf as [Hwl Hwf].
    destruct (selectStep filters (Some u) log) as [use'|p] eqn:E; [|done].
    intros Hr. apply selectStep_changes in E as [-> | (-> & _ & Hpos)].
    + destruct (IH u r Hu Hwf Hr) as [-> | (l & -> & Hin & Hlt)]; [by left|].
      right. exists l. split; [done|]. split; [apply elem_of_cons; auto | done].
    + apply compareLogs_pos in Hpos; [|done|done].
      destruct (IH log r Hwl Hwf Hr) as [-> | (l & -> & Hin & Hlt)].
      * right. exists log. split; [done|]. split; [apply elem_of_cons; auto | done].
      * right. exists l. split; [done|].
        split; [apply elem_of_cons; auto | by eapply key_lt_trans].
Qed.

(** X2: the selection is only ever replaced by a strictly newer candidate.
    For candidates counted from zero that carry a topic for every remaining
    filter, the loop started with a selected log [u] ends with [u] itself or
    with a candidate whose (block number, log index) pair is strictly
    greater; a later candidate with the same pair never takes its place. *)
Theorem selectLoop_keeps_first_of_equals (filters : list Hash) (u : Log)
    (logs : list Log) :
  wf_log u -> Forall wf_log logs -> Forall (narrowable filters) logs ->
  exists r, selectLoop filters (Some u) logs = Returns r /\
    (r = Some u \/ exists l, r = Some l /\ l ∈ logs /\ key_lt u l).
Proof.
  intros Hu Hwf Hn.
  destruct (selectLoop_total filters logs (Some u) Hn) as [r Hr].
  exists r. split; [done|]. by eapply selectLoop_strict.
Qed.

Lemma selectLoop_keeps_first_of_equals_witness :
  selectLoop [Demo.second] (Some Demo.log_10_5)
    [Demo.logAt 10 5 Demo.second; Demo.log_10_2] = Returns (Some Demo.log_10_5).
Proof.
  destruct (selectLoop_keeps_first_of_equals [Demo.second] Demo.log_10_5
              [Demo.logAt 10 5 Demo.second; Demo.log_10_2]
              ltac:(unfold wf_log; simpl; lia) ltac:(candidates_ok)
              ltac:(candidates_ok)) as (r & Hr & _).
  rewrite Hr. vm_compute in Hr. exact (eq_sym Hr).
Defined.

(** X3: the selection does not depend on the order in which the poller
    returns the candidates.  For candidates counted from zero that carry a
    topic for every remaining filter and of which no two share their
    (block number, log index) pair, every permutation of the candidates
    gives the same selected log. *)
Theorem selectLoop_order_independent (filters : list Hash)
    (logs logs' : list Log) :
  logs ≡ₚ logs' ->
  Forall wf_log logs -> Forall (narrowable filters) logs ->
  keys_distinct logs ->
  selectLoop filters None logs' = selectLoop filters None logs.
Proof.
  intros Hperm Hwf Hn Hkeys.
  assert (Hwf' : Forall wf_log logs') by (by rewrite <- Hperm).
  assert (Hn' : Forall (narrowable filters) logs') by (by rewrite <- Hperm).
  destruct (selectLoop_latest filters logs Hwf Hn)
    as [[Hsel Hnone] | (l & Hsel & Hin & Hs & Hmax)];
  destruct (selectLoop_latest filters logs' Hwf' Hn')
    as [[Hsel' Hnone'] | (l' & Hsel' & Hin' & Hs' & Hmax')];
  rewrite Hsel, Hsel'.
  - done.
  - rewrite <- Hperm in Hin'. by destruct (Hnone l' Hin').
  - rewrite Hperm in Hin. by destruct (Hnone' l Hin).
  - rewrite <- Hperm in Hin'.
    assert (Hle : key_le l' l) by (by apply Hmax).
    assert (Hle' : key_le l l').
    { apply Hmax'; [by rewrite <- Hperm | done]. }
    f_equal. f_equal. apply Hkeys; [done | done | |];
      unfold key_le in *; lia.
Qed.

Lemma selectLoop_order_independent_witness :
  selectLoop [Demo.second] None
    [Demo.log_12_0; Demo.log_20_other; Demo.log_10_2; Demo.log_11_0]
  = selectLoop [Demo.second] None
    [Demo.log_10_2; Demo.log_11_0; Demo.log_12_0; Demo.log_20_other].
Proof.
  apply (selectLoop_order_independent [Demo.second]
           [Demo.log_10_2; Demo.log_11_0; Demo.log_12_0; Demo.log_20_other]
           [Demo.log_12_0; Demo.log_20_other; Demo.log_10_2; Demo.log_11_0]).
  - by apply (bool_decide_unpack _).
  - candidates_ok.
  - candidates_ok.
  - intros a b Ha Hb. rewrite !elem_of_cons, elem_of_nil in Ha, Hb.
    destruct Ha as [-> | [-> | [-> | [-> | []]]]];
      destruct Hb as [-> | [-> | [-> | [-> | []]]]];
      simpl; intros; (done || lia).
Defined.

(** ** The filter life cycle, operation by operation *)

Lemma markRegisterCalled_twice (e : eventBinding) :
  markRegisterCalled (markRegisterCalled e) = markRegisterCalled e.
Proof. done. Qed.

(** The three ways [Register] can go. *)
Lemma Register_cases (lp : LogPoller) (e : eventBinding) :
  (bound e = false /\ Register lp e = (lp, markRegisterCalled e, None)) \/
  (bound e = true /\ is_Some (lpFilters lp !! id e) /\
   Register lp e =
     (called (CallHasFilter (id e)) lp, markRegisterCalled e, None)) \/
  (bound e = true /\ lpFilters lp !! id e = None /\
   lpFaults (Register lp e).1.1 = tail (lpFaults lp) /\
   lpCalls (Register lp e).1.1 =
     lpCalls lp ++ [CallHasFilter (id e);
                    CallRegisterFilter (mkFilter (id e) [hash e] [address e])] /\
   match head (lpFaults lp) with
   | Some (Some err) =>
       (Register lp e).2 = Some (ErrorfWW ErrInternal err) /\
       lpFilters (Register lp e).1.1 = lpFilters lp
   | _ =>
       (Register lp e).2 = None /\
       lpFilters (Register lp e).1.1 =
         <[id e := mkFilter (id e) [hash e] [address e]]> (lpFilters lp)
   end).
Proof.
  destruct (bound e) eqn:Hb.
  - right. destruct (lpFilters lp !! id e) as [f|] eqn:Hf.
    + left. split; [done|]. split; [eauto|].
      unfold Register. unfold_lp. rewrite Hb. simpl.
      rewrite bool_decide_eq_true_2 by (rewrite Hf; eauto). done.
    + right. split; [done|]. split; [done|].
      pose proof (Register_absent lp e Hb Hf) as Hc.
      pose proof (Register_absent_outcome lp e Hb Hf) as Ho.
      split; [|split; [done | done]].
      unfold Register. unfold_lp. rewrite Hb. simpl.
      rewrite bool_decide_eq_false_2 by (rewrite Hf; by intros [? ?]).
      by destruct (lpFaults lp) as [|[err|] rest].
  - left. split; [done|]. unfold Register. simpl. by rewrite Hb.
Qed.

(** The two ways [Unregister] can go. *)
Lemma Unregister_cases (lp : LogPoller) (e : eventBinding) :
  (lpFilters lp !! id e = None /\
   Unregister lp e = (called (CallHasFilter (id e)) lp, e, None)) \/
  (is_Some (lpFilters lp !! id e) /\
   (Unregister lp e).1.2 = e /\
   lpFaults (Unregister lp e).1.1 = tail (lpFaults lp) /\
   lpCalls (Unregister lp e).1.1 =
     lpCalls lp ++ [CallHasFilter (id e); CallUnregisterFilter (id e)] /\
   match head (lpFaults lp) with
   | Some (Some err) =>
       (Unregister lp e).2 = Some (ErrorfWW ErrInternal err) /\
       lpFilters (Unregister lp e).1.1 = lpFilters lp
   | _ =>
       (Unregister lp e).2 = None /\
       lpFilters (Unregister lp e).1.1 = delete (id e) (lpFilters lp)
   end).
Proof.
  destruct (lpFilters lp !! id e) as [f|] eqn:Hf.
  - right. split; [eauto|]. unfold Unregister. unfold_lp.
    rewrite bool_decide_eq_true_2 by (rewrite Hf; eauto). simpl.
    destruct (lpFaults lp) as [|[err|] rest]; simpl;
      rewrite <- ?app_assoc; done.
  - left. split; [done|]. by apply Unregister_absent.
Qed.

Lemma Register_held (lp : LogPoller) (e : eventBinding) :
  is_Some (lpFilters lp !! id e) ->
  (Register lp e).2 = None /\
  lpFilters (Register lp e).1.1 = lpFilters lp /\
  lpFaults (Register lp e).1.1 = lpFaults lp /\
  (lpCalls (Register lp e).1.1 = lpCalls lp \/
   lpCalls (Register lp e).1.1 = lpCalls lp ++ [CallHasFilter (id e)]).
Proof.
  intros Hheld.
  destruct (Register_cases lp e)
    as [[_ ->] | [(_ & _ & ->) | (_ & Hnone & _)]]; simpl; auto.
  rewrite Hnone in Hheld. by destruct Hheld.
Qed.

(** X4: [Register] is idempotent.  After a [Register] that returned no
    error, a second [Register] returns no error, leaves the filters and the
    binding as they are, and calls the poller at most for the presence
    test (not at all while the binding is not bound). *)
Theorem Register_idempotent (lp : LogPoller) (e : eventBinding) :
  (Register lp e).2 = None ->
  Register (Register lp e).1.1 (Register lp e).1.2 =
    (if bound e then called (CallHasFilter (id e)) (Register lp e).1.1
     else (Register lp e).1.1,
     (Register lp e).1.2, None).
Proof.
  intros Hok. rewrite Register_binding.
  destruct (Register_cases lp e)
    as [[Hb HR] | [(Hb & Hheld & HR) | (Hb & Hnone & _ & _ & Hout)]].
  - rewrite HR, Hb. simpl.
    destruct (Register_cases lp (markRegisterCalled e))
      as [[_ ->] | [(Hb' & _) | (Hb' & _)]]; [done | |];
      simpl in Hb'; congruence.
  - rewrite HR, Hb. simpl.
    destruct (Register_cases (called (CallHasFilter (id e)) lp)
                (markRegisterCalled e))
      as [[Hb' _] | [(_ & _ & ->) | (_ & Hnone' & _)]].
    + simpl in Hb'. congruence.
    + done.
    + simpl in Hnone'. rewrite Hnone' in Hheld. by destruct Hheld.
  - rewrite Hb.
    assert (Hins : lpFilters (Register lp e).1.1 =
                   <[id e := mkFilter (id e) [hash e] [address e]]> (lpFilters lp)).
    { destruct (head (lpFaults lp)) as [[err|]|]; destruct Hout as [Ho Hf];
        [congruence | done | done]. }
    destruct (Register_cases (Register lp e).1.1 (markRegisterCalled e))
      as [[Hb' _] | [(_ & _ & ->) | (_ & Hnone' & _)]].
    + simpl in Hb'. congruence.
    + done.
    + simpl in Hnone'. rewrite Hins, lookup_insert_eq in Hnone'. done.
Qed.

Lemma Register_idempotent_witness :
  let lp := (Register (Demo.poller None []) Demo.twin).1.1 in
  Register lp (markRegisterCalled Demo.twin)
  = (called (CallHasFilter "binding-2") lp, markRegisterCalled Demo.twin, None).
Proof.
  intros lp.
  pose proof (Register_idempotent (Demo.poller None []) Demo.twin eq_refl) as H.
  exact H.
Defined.

(** X5: [Unregister] is idempotent.  After an [Unregister] that returned no
    error the poller holds no filter under the binding's id, and a second
    [Unregister] makes the presence test only and returns no error. *)
Theorem Unregister_idempotent (lp : LogPoller) (e : eventBinding) :
  (Unregister lp e).2 = None ->
  holds (Unregister lp e).1.1 (id e) = false /\
  Unregister (Unregister lp e).1.1 e =
    (called (CallHasFilter (id e)) (Unregister lp e).1.1, e, None).
Proof.
  intros Hok. pose proof (Unregister_ok lp e Hok) as Hnone.
  split; [by apply holds_false | by apply Unregister_absent].
Qed.

Lemma Unregister_idempotent_witness :
  let lp := (Register (Demo.poller None []) Demo.twin).1.1 in
  holds lp "binding-2" = true /\
  holds (Unregister lp Demo.twin).1.1 "binding-2" = false.
Proof.
  intros lp. split; [reflexivity|].
  apply (Unregister_idempotent lp Demo.twin). reflexivity.
Defined.

(** X6: [Register] never replaces a filter that is held.  When the poller
    holds a filter under the binding's id, whatever address that filter
    names, [Register] returns no error, leaves the filters as they are and
    asks the poller for no registration. *)
Theorem Register_keeps_held_filter (lp : LogPoller) (e : eventBinding) :
  holds lp (id e) = true ->
  (Register lp e).2 = None /\
  lpFilters (Register lp e).1.1 = lpFilters lp /\
  (lpCalls (Register lp e).1.1 = lpCalls lp \/
   lpCalls (Register lp e).1.1 = lpCalls lp ++ [CallHasFilter (id e)]).
Proof.
  unfold holds. rewrite bool_decide_eq_true. intros Hheld.
  destruct (Register_held lp e Hheld) as (Hok & Hf & _ & Hc). done.
Qed.

Lemma Register_keeps_held_filter_witness :
  let lp := (Register (Demo.poller None []) Demo.twin).1.1 in
  let moved :=
    rebound Demo.twin (repeat x07 20) false in
  lpFilters (Register lp moved).1.1 !! "binding-2"
  = Some (mkFilter "binding-2" [Demo.sigHash] [repeat x00 20]).
Proof.
  intros lp moved.
  destruct (Register_keeps_held_filter lp moved eq_refl) as (_ & -> & _).
  reflexivity.
Defined.

(** ** The filter life cycle with a poller that does not fail *)

Lemma Register_no_faults (lp : LogPoller) (e : eventBinding) :
  lpFaults lp = [] ->
  (Register lp e).2 = None /\ lpFaults (Register lp e).1.1 = [] /\
  lpFilters (Register lp e).1.1 =
    (if bound e && negb (holds lp (id e))
     then <[id e := mkFilter (id e) [hash e] [address e]]> (lpFilters lp)
     else lpFilters lp).
Proof.
  intros Hf. unfold holds.
  destruct (Register_cases lp e)
    as [[Hb ->] | [(Hb & Hheld & ->) | (Hb & Hnone & Hf' & _ & Hout)]];
    rewrite Hb; simpl.
  - done.
  - by rewrite bool_decide_eq_true_2.
  - rewrite Hf in Hf', Hout. simpl in Hout. destruct Hout as [-> ->].
    rewrite bool_decide_eq_false_2 by (rewrite Hnone; by intros [? ?]). done.
Qed.

Lemma Unregister_no_faults (lp : LogPoller) (e : eventBinding) :
  lpFaults lp = [] ->
  (Unregister lp e).2 = None /\ lpFaults (Unregister lp e).1.1 = [] /\
  lpFilters (Unregister lp e).1.1 = delete (id e) (lpFilters lp).
Proof.
  intros Hf.
  destruct (Unregister_cases lp e)
    as [[Hnone ->] | (Hheld & _ & Hf' & _ & Hout)]; simpl.
  - by rewrite delete_id.
  - rewrite Hf in Hf', Hout. simpl in Hout. by destruct Hout as [-> ->].
Qed.

(** X7: with a poller that does not fail, [Register] followed by
    [Unregister] leaves the filters exactly as they were before, when no
    filter was held under the binding's id: what [Register] adds,
    [Unregister] removes, and nothing else is touched. *)
Theorem Register_Unregister_round_trip (lp : LogPoller) (e : eventBinding) :
  lpFaults lp = [] -> holds lp (id e) = false ->
  (Register lp e).2 = None /\
  (Unregister (Register lp e).1.1 (Register lp e).1.2).2 = None /\
  lpFilters (Unregister (Register lp e).1.1 (Register lp e).1.2).1.1
    = lpFilters lp.
Proof.
  intros Hf Hnone.
  destruct (Register_no_faults lp e Hf) as (HRok & HRf & HRm).
  destruct (Unregister_no_faults (Register lp e).1.1 (Register lp e).1.2 HRf)
    as (HUok & _ & HUm).
  split; [done|]. split; [done|].
  rewrite HUm, HRm, Register_binding, Hnone. simpl id.
  apply holds_false in Hnone.
  destruct (bound e); simpl; [by apply delete_insert_id | by apply delete_id].
Qed.

Lemma Register_Unregister_round_trip_witness :
  lpFilters (Unregister (Register (Demo.poller None []) Demo.twin).1.1
               (Register (Demo.poller None []) Demo.twin).1.2).1.1 = ∅.
Proof.
  apply (Register_Unregister_round_trip (Demo.poller None []) Demo.twin);
    reflexivity.
Defined.

Section NoFaults.

Context {parser : AddressParser}.

Lemma Bind_no_faults (lp : LogPoller) (e : eventBinding) (b : BoundContract) :
  lpFaults lp = [] ->
  (Bind lp e b).2 = None /\ lpFaults (Bind lp e b).1.1 = [] /\
  (Bind lp e b).1.2 =
    (if registerCalled e
     then markRegisterCalled
            (rebound e (HexToAddress (bcAddress b)) (bcPending b))
     else rebound e (HexToAddress (bcAddress b)) (bcPending b)) /\
  lpFilters (Bind lp e b).1.1 =
    (if registerCalled e
     then <[id e := mkFilter (id e) [hash e] [HexToAddress (bcAddress b)]]>
            (lpFilters lp)
     else delete (id e) (lpFilters lp)).
Proof.
  intros Hf. destruct (Unregister_no_faults lp e Hf) as (HUok & HUf & HUm).
  rewrite Bind_unfold, HUok. cbv zeta.
  destruct (registerCalled e) eqn:Hlatch; [|done].
  set (e1 := rebound e (HexToAddress (bcAddress b)) (bcPending b)).
  destruct (Register_no_faults (Unregister lp e).1.1 e1 HUf) as (HRok & HRf & HRm).
  rewrite Register_binding. split_and!; [done | done | done |].
  rewrite HRm. unfold holds. rewrite HUm. simpl bound. simpl id.
  rewrite lookup_delete_eq.
  rewrite bool_decide_eq_false_2 by (by intros [? ?]). simpl.
  apply insert_delete_eq.
Qed.

(** X8: with a poller that does not fail, [Register] followed by [Bind]
    leaves the poller with the filters it had, except that under the
    binding's id it holds one filter, for the newly bound address; no filter
    for the old address is left under that id and no other filter is
    touched.  Neither call returns an error. *)
Theorem Register_then_Bind_moves_filter (lp : LogPoller) (e : eventBinding)
    (b : BoundContract) :
  lpFaults lp = [] ->
  (Register lp e).2 = None /\
  (Bind (Register lp e).1.1 (Register lp e).1.2 b).2 = None /\
  lpFilters (Bind (Register lp e).1.1 (Register lp e).1.2 b).1.1 =
    <[id e := mkFilter (id e) [hash e] [HexToAddress (bcAddress b)]]>
      (lpFilters lp) /\
  address (Bind (Register lp e).1.1 (Register lp e).1.2 b).1.2 =
    HexToAddress (bcAddress b) /\
  bound (Bind (Register lp e).1.1 (Register lp e).1.2 b).1.2 = true.
Proof.
  intros Hf.
  destruct (Register_no_faults lp e Hf) as (HRok & HRf & HRm).
  destruct (Bind_no_faults (Register lp e).1.1 (Register lp e).1.2 b HRf)
    as (HBok & _ & HBe & HBm).
  rewrite Register_binding in *. rewrite HBe, HBm, HRm. simpl.
  split_and!; [done | done | | done | done].
  destruct (bound e && negb (holds lp (id e))); [|done].
  apply insert_insert_eq.
Qed.

End NoFaults.

Lemma Register_then_Bind_moves_filter_witness :
  let lp := Demo.poller None [] in
  let e := Demo.binding true ["from"] in
  lpFilters (Register lp e).1.1
  = {[ "binding-1" := mkFilter "binding-1" [Demo.sigHash] [repeat x00 20] ]} /\
  lpFilters (Bind (parser := Demo.parser) (Register lp e).1.1 (Register lp e).1.2
               (mkBoundContract "0x01" "Feed" false)).1.1
  = <[ "binding-1" := mkFilter "binding-1" [Demo.sigHash] [repeat x01 20] ]> ∅.
Proof.
  intros lp e. split; [reflexivity|].
  apply (Register_then_Bind_moves_filter (parser := Demo.parser) lp e
           (mkBoundContract "0x01" "Feed" false)).
  reflexivity.
Defined.

(** ** The filter life cycle over sequences of operations *)

Lemma evolves_refl (e : eventBinding) : evolves e e.
Proof. unfold evolves. done. Qed.

Lemma evolves_trans (e1 e2 e3 : eventBinding) :
  evolves e1 e2 -> evolves e2 e3 -> evolves e1 e3.
Proof. unfold evolves. intros (?&?&?&?&?&?&?&?) (?&?&?&?&?&?&?&?).
  split_and!; try congruence; auto. Qed.

Lemma head_elem_of {A} (l : list A) (x : A) : head l = Some x -> x ∈ l.
Proof. destruct l; [done|]. intros [= ->]. apply elem_of_cons. auto. Qed.

Lemma tail_elem_of {A} (l : list A) (x : A) : x ∈ tail l -> x ∈ l.
Proof. destruct l; [done|]. simpl. intros. apply elem_of_cons. auto. Qed.

Lemma Register_error (lp : LogPoller) (e : eventBinding) (err : error) :
  (Register lp e).2 = Some err ->
  exists cause, err = ErrorfWW ErrInternal cause /\
                head (lpFaults lp) = Some (Some cause).
Proof.
  destruct (Register_cases lp e)
    as [[_ ->] | [(_ & _ & ->) | (_ & _ & _ & _ & Hout)]]; [done | done |].
  destruct (head (lpFaults lp)) as [[cause|]|]; destruct Hout as [-> _];
    [|done|done].
  intros [= <-]. eauto.
Qed.

Lemma Unregister_error (lp : LogPoller) (e : eventBinding) (err : error) :
  (Unregister lp e).2 = Some err ->
  exists cause, err = ErrorfWW ErrInternal cause /\
                head (lpFaults lp) = Some (Some cause).
Proof.
  destruct (Unregister_cases lp e) as [[_ ->] | (_ & _ & _ & _ & Hout)]; [done|].
  destruct (head (lpFaults lp)) as [[cause|]|]; destruct Hout as [-> _];
    [|done|done].
  intros [= <-]. eauto.
Qed.

Lemma Unregister_faults (lp : LogPoller) (e : eventBinding) :
  lpFaults (Unregister lp e).1.1 = lpFaults lp \/
  lpFaults (Unregister lp e).1.1 = tail (lpFaults lp).
Proof.
  destruct (Unregister_cases lp e) as [[_ ->] | (_ & _ & -> & _)]; auto.
Qed.

Section Sequences.

Context {parser : AddressParser}.

Lemma step_evolves (s : LogPoller * eventBinding) (o : Op) :
  evolves s.2 (step s o).2.
Proof.
  destruct s as [lp e]. destruct o as [b| |]; simpl.
  - rewrite Bind_unfold. destruct (Unregister lp e).2; [apply evolves_refl|].
    cbv zeta. destruct (registerCalled e) eqn:Hl;
      rewrite ?Register_binding; unfold evolves; simpl; done.
  - rewrite Register_binding. unfold evolves. simpl. done.
  - rewrite Unregister_binding. apply evolves_refl.
Qed.

Lemma run_evolves_all (ops : list Op) :
  forall s : LogPoller * eventBinding, evolves s.2 (run ops s).2.
Proof.
  induction ops as [|o ops IH]; intros s; simpl.
  - apply evolves_refl.
  - eapply evolves_trans; [apply step_evolves | apply IH].
Qed.

(** X9: no sequence of [Bind], [Register] and [Unregister] changes the id of
    a binding, its event signature hash, its names or its schemas; the latch
    set by [Register] is never reset (not by [Unregister] either), and a
    bound binding never becomes unbound again. *)
Theorem run_evolves (ops : list Op) (s : LogPoller * eventBinding) :
  id (run ops s).2 = id s.2 /\ hash (run ops s).2 = hash s.2 /\
  contractName (run ops s).2 = contractName s.2 /\
  eventName (run ops s).2 = eventName s.2 /\
  inputInfo (run ops s).2 = inputInfo s.2 /\
  topicInfo (run ops s).2 = topicInfo s.2 /\
  (registerCalled s.2 = true -> registerCalled (run ops s).2 = true) /\
  (bound s.2 = true -> bound (run ops s).2 = true).
Proof.
  exact (run_evolves_all ops s).
Qed.

Lemma Bind_error (lp : LogPoller) (e : eventBinding) (b : BoundContract)
    (err : error) :
  (Bind lp e b).2 = Some err ->
  exists cause, err = ErrorfWW ErrInternal cause /\ Some cause ∈ lpFaults lp.
Proof.
  rewrite Bind_unfold. destruct (Unregister lp e).2 as [uerr|] eqn:HU.
  - simpl. intros [= <-]. apply Unregister_error in HU as (cause & -> & Hh).
    exists cause. split; [done | by apply head_elem_of].
  - cbv zeta. destruct (registerCalled e); [|done].
    intros HR. apply Register_error in HR as (cause & -> & Hh).
    exists cause. split; [done|]. apply head_elem_of in Hh.
    destruct (Unregister_faults lp e) as [Hf | Hf]; rewrite Hf in Hh;
      [done | by apply tail_elem_of].
Qed.

Lemma step_no_faults (s : LogPoller * eventBinding) (o : Op) :
  lpFaults s.1 = [] -> outcome s o = None /\ lpFaults (step s o).1 = [].
Proof.
  destruct s as [lp e]. simpl. intros Hf. destruct o as [b| |]; simpl.
  - by destruct (Bind_no_faults lp e b Hf) as (? & ? & _).
  - by destruct (Register_no_faults lp e Hf) as (? & ? & _).
  - by destruct (Unregister_no_faults lp e Hf) as (? & ? & _).
Qed.

Lemma run_no_faults (ops : list Op) :
  forall s : LogPoller * eventBinding,
  lpFaults s.1 = [] -> lpFaults (run ops s).1 = [].
Proof.
  induction ops as [|o ops IH]; intros s Hf; simpl; [done|].
  apply IH. by apply step_no_faults.
Qed.

(** X10: the life cycle returns no error of its own.  An error returned by
    [Bind], [Register] or [Unregister] is an error of the poller's filter
    calls wrapped together with [ErrInternal]; and when the poller does not
    fail, every operation of every sequence returns no error. *)
Theorem lifecycle_errors_are_the_pollers (s : LogPoller * eventBinding)
    (o : Op) :
  (forall err, outcome s o = Some err ->
     exists cause, err = ErrorfWW ErrInternal cause /\
       Some cause ∈ lpFaults s.1 /\
       Is err ErrInternal = true /\ Is err cause = true) /\
  (lpFaults s.1 = [] -> forall ops, outcome (run ops s) o = None).
Proof.
  split.
  - intros err Herr.
    assert (exists cause, err = ErrorfWW ErrInternal cause /\
                          Some cause ∈ lpFaults s.1) as (cause & -> & Hin).
    { destruct s as [lp e]. destruct o as [b| |]; simpl in *.
      - by apply Bind_error in Herr.
      - apply Register_error in Herr as (cause & -> & Hh).
        exists cause. split; [done | by apply head_elem_of].
      - apply Unregister_error in Herr as (cause & -> & Hh).
        exists cause. split; [done | by apply head_elem_of]. }
    exists cause. split_and!; [done | done | apply Is_ErrorfWW_l | apply Is_ErrorfWW_r].
  - intros Hf ops. apply step_no_faults. by apply run_no_faults.
Qed.

End Sequences.

Lemma lifecycle_errors_are_the_pollers_witness :
  let lp :=
    mkLogPoller ∅ [Some (ErrorNew "database is down")]
      (fun _ _ _ => (None, None)) (fun _ _ _ _ _ => ([], None)) [] in
  outcome (parser := Demo.parser) (lp, Demo.twin) OpRegister
  = Some (ErrorfWW ErrInternal (ErrorNew "database is down")) /\
  outcome (parser := Demo.parser)
    (run (parser := Demo.parser)
       [OpRegister; OpBind (mkBoundContract "0x01" "Feed" true); OpUnregister]
       (Demo.poller None [], Demo.twin))
    OpRegister = None.
Proof.
  intros lp. split.
  - destruct (lifecycle_errors_are_the_pollers (parser := Demo.parser)
                (lp, Demo.twin) OpRegister) as [Herr _].
    destruct (Herr (ErrorfWW ErrInternal (ErrorNew "database is down")) eq_refl)
      as (cause & Hc & _).
    injection Hc as <-. reflexivity.
  - apply (lifecycle_errors_are_the_pollers (parser := Demo.parser)
             (Demo.poller None [], Demo.twin) OpRegister).
    reflexivity.
Defined.

Section Synchronised.

Context {parser : AddressParser}.

Lemma step_in_sync (s : LogPoller * eventBinding) (o : Op) :
  in_sync s -> in_sync (step s o).
Proof.
  destruct s as [lp e]. unfold in_sync. simpl. intros Hs.
  destruct o as [b| |]; simpl.
  - rewrite Bind_unfold. destruct (Unregister lp e).2 as [uerr|] eqn:HU.
    + simpl. apply Unregister_failed in HU as [-> _]. done.
    + pose proof (Unregister_ok lp e HU) as Hnone. cbv zeta.
      destruct (registerCalled e) eqn:Hl.
      * set (e1 := rebound e (HexToAddress (bcAddress b)) (bcPending b)).
        rewrite Register_binding. simpl.
        destruct (Register_filters (Unregister lp e).1.1 e1)
          as [-> | (_ & _ & ->)]; intros f.
        -- rewrite Hnone. done.
        -- simpl. rewrite lookup_insert_eq. intros [= <-]. done.
      * simpl. intros f. rewrite Hnone. done.
  - rewrite Register_binding. simpl.
    destruct (Register_filters lp e) as [-> | (Hb & _ & ->)]; intros f.
    + intros Hf. destruct (Hs f Hf) as (-> & Hb & _). done.
    + rewrite lookup_insert_eq. intros [= <-]. done.
  - rewrite Unregister_binding.
    destruct (Unregister_filters lp e) as [-> | ->]; intros f; [apply Hs|].
    rewrite lookup_delete_eq. done.
Qed.

Lemma run_keeps_sync (ops : list Op) :
  forall s : LogPoller * eventBinding, in_sync s -> in_sync (run ops s).
Proof.
  induction ops as [|o ops IH]; intros s Hs; simpl; [done|].
  apply IH. by apply step_in_sync.
Qed.

(** X11: no stale filter survives.  Starting from a state in which any
    filter held under the binding's id is the filter of the binding's
    current address and is held by a binding that is bound and has its
    latch set (in particular from a state with no such filter), this stays
    so after every sequence of [Bind], [Register] and [Unregister],
    whichever calls of the poller fail on the way: a filter held under the
    id always names the event signature hash and the current address of the
    binding, and is held only while the binding is bound and its latch is
    set. *)
Theorem run_in_sync (ops : list Op) (s : LogPoller * eventBinding) :
  in_sync s -> in_sync (run ops s).
Proof. apply run_keeps_sync. Qed.

Lemma step_settled (s : LogPoller * eventBinding) (o : Op) :
  lpFaults s.1 = [] -> in_sync s ->
  match o with
  | OpUnregister => holds (step s o).1 (id s.2) = false
  | _ => holds (step s o).1 (id s.2)
         = registerCalled (step s o).2 && bound (step s o).2
  end.
Proof.
  destruct s as [lp e]. unfold in_sync, holds. simpl. intros Hf Hs.
  destruct o as [b| |]; simpl.
  - destruct (Bind_no_faults lp e b Hf) as (_ & _ & -> & ->).
    destruct (registerCalled e) eqn:Hl; simpl.
    + rewrite lookup_insert_eq. by rewrite bool_decide_eq_true_2.
    + rewrite Hl, lookup_delete_eq. by rewrite bool_decide_eq_false_2 by (by intros [? ?]).
  - destruct (Register_no_faults lp e Hf) as (_ & _ & ->).
    rewrite Register_binding. simpl. unfold holds.
    destruct (lpFilters lp !! id e) as [f|] eqn:Hheld.
    + destruct (Hs f eq_refl) as (_ & -> & _). simpl. by rewrite Hheld.
    + simpl. destruct (bound e); simpl.
      * by rewrite lookup_insert_eq.
      * by rewrite Hheld.
  - destruct (Unregister_no_faults lp e Hf) as (_ & _ & ->).
    rewrite lookup_delete_eq. by rewrite bool_decide_eq_false_2 by (by intros [? ?]).
Qed.

(** X12: with a poller that does not fail, the filter follows the binding.
    From a state as in X11, after any sequence of operations that ends with
    [Bind] or [Register] the poller holds a filter under the binding's id
    exactly when the binding is bound and its latch is set; after a sequence
    that ends with [Unregister] it holds none. *)
Theorem filter_follows_binding (ops : list Op) (o : Op)
    (s : LogPoller * eventBinding) :
  lpFaults s.1 = [] -> in_sync s ->
  match o with
  | OpUnregister => holds (run (ops ++ [o]) s).1 (id s.2) = false
  | _ => holds (run (ops ++ [o]) s).1 (id s.2)
         = registerCalled (run (ops ++ [o]) s).2 && bound (run (ops ++ [o]) s).2
  end.
Proof.
  intros Hf Hs. unfold run. rewrite foldl_app. simpl. fold (run ops s).
  pose proof (step_settled (run ops s) o (run_no_faults ops s Hf)
                (run_keeps_sync ops s Hs)) as H.
  destruct (run_evolves_all ops s) as (Hid & _). rewrite Hid in H. exact H.
Qed.

End Synchronised.

Lemma run_in_sync_witness :
  let lp :=
    mkLogPoller ∅ [None; Some (ErrorNew "database is down")]
      (fun _ _ _ => (None, None)) (fun _ _ _ _ _ => ([], None)) [] in
  let s := run (parser := Demo.parser)
             [OpRegister; OpBind (mkBoundContract "0x01" "Feed" true)]
             (lp, Demo.twin) in
  lpFilters s.1 !! "binding-2"
    = Some (mkFilter "binding-2" [Demo.sigHash] [repeat x00 20]) /\
  address s.2 = repeat x00 20 /\ bound s.2 = true /\ registerCalled s.2 = true.
Proof.
  intros lp s.
  assert (Hheld : lpFilters s.1 !! id s.2
                  = Some (mkFilter "binding-2" [Demo.sigHash] [repeat x00 20]))
    by reflexivity.
  destruct (run_in_sync (parser := Demo.parser)
              [OpRegister; OpBind (mkBoundContract "0x01" "Feed" true)]
              (lp, Demo.twin)
              ltac:(intros f Hf; discriminate Hf) _ Hheld) as (_ & Hb & Hl).
  split_and!; [exact Hheld | reflexivity | exact Hb | exact Hl].
Defined.

Lemma filter_follows_binding_witness :
  holds (run (parser := Demo.parser)
           ([OpBind (mkBoundContract "0x01" "Feed" true); OpUnregister]
            ++ [OpRegister])
           (Demo.poller None [], Demo.binding false ["from"])).1
        "binding-1" = true.
Proof.
  apply (filter_follows_binding (parser := Demo.parser)
           [OpBind (mkBoundContract "0x01" "Feed" true); OpUnregister]
           OpRegister (Demo.poller None [], Demo.binding false ["from"])).
  - reflexivity.
  - intros f Hf. discriminate Hf.
Defined.

(** * Further properties of the reads *)

(** ** Decoding *)

Lemma toHash_long (t : bytes) : 32 <= length t -> toHash t = Returns (take 32 t).
Proof. intros H. unfold toHash. rewrite bool_decide_eq_false_2 by lia. done. Qed.

Lemma toHash_short (t : bytes) : length t < 32 -> toHash t = Panics SliceTooShort.
Proof. intros H. unfold toHash. by rewrite bool_decide_eq_true_2. Qed.

(** Behind the guard of [decodeLog] the copying loop indexes within range:
    it returns the first 32 bytes of the topics in slots [i + 1] to [i + n],
    or stops at a topic that is too short. *)
Lemma copyTopics_guarded (n : nat) :
  forall (i : nat) (topics : list bytes),
  i + n + 1 <= length topics ->
  ((forall j t, j < n -> topics !! (i + j + 1) = Some t -> 32 <= length t) /\
   copyTopics i n topics = Returns (take 32 <$> take n (drop (i + 1) topics))) \/
  ((exists j t, j < n /\ topics !! (i + j + 1) = Some t /\ length t < 32) /\
   copyTopics i n topics = Panics SliceTooShort).
Proof.
  induction n as [|n IH]; intros i topics Hlen; simpl.
  - left. split; [intros j t Hj; lia | done].
  - destruct (topics !! (i + 1)) as [t|] eqn:Ht.
    2:{ apply lookup_ge_None in Ht. lia. }
    rewrite (drop_S _ _ _ Ht). simpl.
    destruct (decide (length t < 32)) as [Hshort | Hlong].
    + right. rewrite (toHash_short t Hshort). split; [|done].
      exists 0, t. split; [lia|]. by rewrite Nat.add_0_r.
    + rewrite (toHash_long t) by lia.
      destruct (IH (S i) topics ltac:(lia)) as [[Hall ->] | [Hex ->]].
      * left. split; [|done]. intros [|j] t' Hj Hl.
        -- rewrite Nat.add_0_r, Ht in Hl. injection Hl as <-. lia.
        -- apply (Hall j t'); [lia|].
           by replace (S i + j + 1) with (i + S j + 1) by lia.
      * right. split; [|done]. destruct Hex as (j & t' & Hj & Hl & Hs).
        exists (S j), t'. split; [lia|]. split; [|done].
        by replace (i + S j + 1) with (S i + j + 1) by lia.
Qed.

Section DecodeStatements.

Context {V : Type} {codec : RemoteCodec V} {package : Package V}.

(** X13: the decoded item.  When the codec has decoded the data payload, the
    log carries at least one topic more than the topic schema has arguments
    and each of the topics in slots 1 to n has at least 32 bytes, [decodeLog]
    parses the first 32 bytes of exactly these topics, in order (the
    signature topic in slot 0 and any topic beyond slot n are left out), and
    merges the parsed topics into the decoded payload; an error of the
    parsing is returned wrapped together with [ErrInvalidType]. *)
Theorem decodeLog_parses_indexed_topics (e : eventBinding) (log : Log)
    (into : V) :
  let decoded :=
    Decode (Data log) into (WrapItemType (contractName e) (eventName e) false) in
  let n := length (Args (topicInfo e)) in
  let parsed :=
    ParseTopics (Args (topicInfo e)) (take 32 <$> take n (drop 1 (Topics log))) in
  decoded.2 = None -> n + 1 <= length (Topics log) ->
  (forall j t, j < n -> Topics log !! (j + 1) = Some t -> 32 <= length t) ->
  decodeLog e (Some log) into =
    match parsed.2 with
    | Some err => Returns (decoded.1, Some (ErrorfWW ErrInvalidType err))
    | None => Returns (mapstructureDecode parsed.1 decoded.1)
    end.
Proof.
  intros decoded n parsed Hd Hlen Hlong. unfold decodeLog.
  subst decoded parsed n.
  destruct (Decode (Data log) into _) as [into1 derr]. simpl in *. subst derr.
  rewrite bool_decide_eq_false_2 by lia.
  destruct (copyTopics_guarded (length (Args (topicInfo e))) 0 (Topics log)
              ltac:(simpl; lia)) as [[_ ->] | [(j & t & Hj & Hl & Hs) _]].
  - simpl. by destruct (ParseTopics _ _) as [topicsInto [perr|]].
  - specialize (Hlong j t Hj Hl). exfalso. lia.
Qed.

(** X14: [decodeLog] on a log never indexes out of range.  It panics only
    with a slice too short for a hash, and exactly when the codec has
    decoded the data payload, the log carries enough topics and one of the
    topics in slots 1 to n has fewer than 32 bytes. *)
Theorem decodeLog_panics_iff (e : eventBinding) (log : Log) (into : V)
    (p : panic) :
  decodeLog e (Some log) into = Panics p <->
  p = SliceTooShort /\
  (Decode (Data log) into (WrapItemType (contractName e) (eventName e) false)).2
    = None /\
  length (Args (topicInfo e)) + 1 <= length (Topics log) /\
  exists j t, j < length (Args (topicInfo e)) /\
              Topics log !! (j + 1) = Some t /\ length t < 32.
Proof.
  unfold decodeLog.
  destruct (Decode (Data log) into _) as [into1 [derr|]]; simpl.
  { split; [done | by intros (_ & [=] & _)]. }
  case_bool_decide as Hfew.
  { split; [done | intros (_ & _ & Hlen & _); exfalso; lia]. }
  destruct (copyTopics_guarded (length (Args (topicInfo e))) 0 (Topics log)
              ltac:(simpl; lia)) as [[Hall ->] | [Hex ->]].
  - simpl. split.
    + by destruct (ParseTopics _ _) as [topicsInto [perr|]].
    + intros (_ & _ & _ & j & t & Hj & Hl & Hs).
      specialize (Hall j t Hj Hl). exfalso. lia.
  - split.
    + intros [= <-]. split_and!; [done | done | lia | done].
    + by intros (-> & _).
Qed.

End DecodeStatements.

Lemma decodeLog_parses_indexed_topics_witness :
  Demo.decode (Demo.binding true ["from"; "to"])
    (Some (mkLog 7 0 [Demo.sigHash; Demo.first ++ [x09]; Demo.second; Demo.third]
             [x2a])) []
  = Returns ([[x2a]; Demo.first; Demo.second], None).
Proof.
  apply (decodeLog_parses_indexed_topics (codec := Demo.codec)
           (package := Demo.package) (Demo.binding true ["from"; "to"])
           (mkLog 7 0 [Demo.sigHash; Demo.first ++ [x09]; Demo.second; Demo.third]
              [x2a]) []).
  - reflexivity.
  - simpl. lia.
  - intros j t Hj Hl. destruct j as [|[|j]]; simpl in Hj, Hl;
      [injection Hl as <-; vm_compute; lia
      | injection Hl as <-; vm_compute; lia | lia].
Defined.

Lemma decodeLog_panics_iff_witness :
  Demo.decode (Demo.binding true ["from"; "to"])
    (Some (mkLog 7 0 [Demo.sigHash; Demo.first; [x01; x02]] [x2a])) []
  = Panics SliceTooShort.
Proof.
  apply (decodeLog_panics_iff (codec := Demo.codec) (package := Demo.package)).
  split_and!; [reflexivity | reflexivity | simpl; lia |].
  exists 1, [x01; x02]. split_and!; [simpl; lia | reflexivity | simpl; lia].
Defined.

(** ** The two paths of a read *)

Section ReadPaths.

Context {texts : SentinelTexts} {V : Type} {codec : RemoteCodec V}
  {modifier : Modifier V} {package : Package V}.

Lemma wrapInternalErr_some (err : error) :
  exists w, wrapInternalErr (Some err) = Some w /\ Is w err = true /\
            (Is w ErrNotFound = true \/ Is w ErrInternal = true).
Proof.
  simpl. destruct (_ || _); eexists; (split; [done|]).
  - split; [apply Is_ErrorfWW_r | left; apply Is_ErrorfWW_l].
  - split; [apply Is_ErrorfWW_r | right; apply Is_ErrorfWW_l].
Qed.

(** X15: the read of a bound binding without input arguments.  It makes one
    call on the poller, for the latest log of the event signature hash at
    the bound address under the confirmation policy of the pending flag, and
    changes no filter.  An error of the poller is returned wrapped together
    with [ErrNotFound] or [ErrInternal], the output target untouched, also
    when the poller hands back a log with it; a log without an error goes to
    [decodeLog]; and when the poller hands back neither, the read follows a
    nil pointer. *)
Theorem GetLatestValue_without_filters (lp : LogPoller) (e : eventBinding)
    (params into : V) :
  bound e = true -> length (Args (inputInfo e)) = 0 ->
  let answer := lpLatestLog lp (hash e) (address e) (confsOf e) in
  lpCalls (GetLatestValue lp e params into).1 =
    lpCalls lp ++
    [CallLatestLogByEventSigWithConfs (hash e) (address e)
       (if pending e then Unconfirmed else Finalized)] /\
  lpFilters (GetLatestValue lp e params into).1 = lpFilters lp /\
  (forall err, answer.2 = Some err ->
     exists w, (GetLatestValue lp e params into).2 = Returns (into, Some w) /\
       Is w err = true /\ (Is w ErrNotFound = true \/ Is w ErrInternal = true)) /\
  (forall log, answer = (Some log, None) ->
     (GetLatestValue lp e params into).2 = decodeLog e (Some log) into) /\
  (answer = (None, None) ->
     (GetLatestValue lp e params into).2 = Panics NilDereference).
Proof.
  intros Hb Hn answer. rewrite GetLatestValue_unfiltered by done.
  fold answer. simpl. split_and!; [done | done | | |].
  - intros err Herr. rewrite Herr.
    destruct (wrapInternalErr_some err) as (w & Hw & His & Hkind).
    rewrite Hw. eauto.
  - intros log Ha. by rewrite Ha.
  - intros Ha. by rewrite Ha.
Qed.

(** X16: a read leaves the poller's state alone.  Whatever the binding, the
    parameters and the answers of the collaborators, [GetLatestValue] changes
    neither the filters nor the scheduled outcomes of the poller, and calls
    it at most once, with one of the two read calls: it never registers,
    unregisters or tests for a filter. *)
Theorem GetLatestValue_frame (lp : LogPoller) (e : eventBinding)
    (params into : V) :
  lpFilters (GetLatestValue lp e params into).1 = lpFilters lp /\
  lpFaults (GetLatestValue lp e params into).1 = lpFaults lp /\
  (lpCalls (GetLatestValue lp e params into).1 = lpCalls lp \/
   exists c, lpCalls (GetLatestValue lp e params into).1 = lpCalls lp ++ [c] /\
             isReadCall c = true).
Proof.
  unfold GetLatestValue, getLatestValueWithoutFilters, getLatestValueWithFilters,
    LatestLogByEventSigWithConfs, IndexedLogs.
  destruct (bound e); simpl; [|auto].
  case_bool_decide.
  - destruct (lpLatestLog lp _ _ _) as [log err].
    destruct (wrapInternalErr err); simpl; eauto 6.
  - destruct (convertToOffChainType e params) as [offChain [err|]]; simpl; [auto|].
    destruct (TransformForOnChain offChain "") as [checked [err|]]; simpl; [auto|].
    destruct (encodeParams e checked) as [[|fai remaining] [err|]]; simpl;
      [auto | auto | auto |].
    destruct (lpIndexedLogs lp _ _ _ _ _) as [logs [err|]]; simpl; [eauto 6|].
    destruct (selectLoop remaining None logs) as [[l|]|p]; simpl; eauto 6.
Qed.

(** X17: a failure before the poller is asked.  On the filtered path, when
    the conversion of the parameters to the off-chain type, the input
    modifier or the encoding of the topics fails, the read returns that
    error as it is, leaves the output target untouched and makes no call on
    the poller. *)
Theorem GetLatestValue_parameter_errors (lp : LogPoller) (e : eventBinding)
    (params into : V) :
  bound e = true -> length (Args (inputInfo e)) <> 0 ->
  computedFilters e params = None ->
  exists err,
    GetLatestValue lp e params into = (lp, Returns (into, Some err)) /\
    ((convertToOffChainType e params).2 = Some err \/
     (exists offChain, convertToOffChainType e params = (offChain, None) /\
        ((TransformForOnChain offChain "").2 = Some err \/
         exists checked, TransformForOnChain offChain "" = (checked, None) /\
           (encodeParams e checked).2 = Some err))).
Proof.
  intros Hb Hn Hc. unfold GetLatestValue, getLatestValueWithFilters.
  rewrite Hb, bool_decide_eq_false_2 by done. simpl.
  unfold computedFilters in Hc.
  destruct (convertToOffChainType e params) as [offChain [err|]]; [eauto|].
  destruct (TransformForOnChain offChain "") as [checked [err|]] eqn:HT.
  { exists err. split; [done|]. right. exists offChain. rewrite HT. auto. }
  destruct (encodeParams e checked) as [fs [err|]] eqn:HE; [|done].
  exists err. split; [done|]. right. exists offChain. split; [done|].
  right. exists checked. rewrite HE. auto.
Qed.

(** X18: when the encoding of the parameters yields no topic hash at all,
    the read indexes the empty list of hashes: it stops with an index out
    of range before the poller is asked. *)
Theorem GetLatestValue_no_hash (lp : LogPoller) (e : eventBinding)
    (params into : V) :
  bound e = true -> length (Args (inputInfo e)) <> 0 ->
  computedFilters e params = Some [] ->
  GetLatestValue lp e params into = (lp, Panics IndexOutOfRange).
Proof.
  intros Hb Hn Hc. unfold GetLatestValue, getLatestValueWithFilters.
  rewrite Hb, bool_decide_eq_false_2 by done. simpl.
  unfold computedFilters in Hc.
  destruct (convertToOffChainType e params) as [offChain [err|]]; [done|].
  destruct (TransformForOnChain offChain "") as [checked [err|]]; [done|].
  destruct (encodeParams e checked) as [fs [err|]]; [done|].
  by injection Hc as ->.
Qed.

End ReadPaths.

Lemma GetLatestValue_without_filters_witness :
  exists w,
    (Demo.read (Demo.poller None []) (Demo.binding true []) [] []).2
    = Returns ([], Some w) /\
    Is w (ErrorNew "sql: no rows in result set") = true.
Proof.
  destruct (GetLatestValue_without_filters (texts := Demo.texts)
              (codec := Demo.codec) (modifier := Demo.modifier)
              (package := Demo.package) (Demo.poller None [])
              (Demo.binding true []) [] [] eq_refl eq_refl)
    as (_ & _ & Herr & _).
  destruct (Herr (ErrorNew "sql: no rows in result set") eq_refl)
    as (w & Hw & His & _).
  exists w. split; [exact Hw | exact His].
Defined.

Lemma GetLatestValue_parameter_errors_witness :
  exists err,
    GetLatestValue (texts := Demo.texts) (codec := Demo.codec)
      (modifier :=
         {| TransformForOnChain v _ := (v, Some (ErrorNew "cannot transform")) |})
      (package := Demo.package) (Demo.poller None [Demo.log_10_2])
      (Demo.binding true ["from"]) [Demo.first] []
    = (Demo.poller None [Demo.log_10_2], Returns ([], Some err)).
Proof.
  destruct (GetLatestValue_parameter_errors (texts := Demo.texts)
              (codec := Demo.codec)
              (modifier :=
                 {| TransformForOnChain v _ :=
                      (v, Some (ErrorNew "cannot transform")) |})
              (package := Demo.package) (Demo.poller None [Demo.log_10_2])
              (Demo.binding true ["from"]) [Demo.first] []
              eq_refl ltac:(simpl; lia) eq_refl) as (err & Hr & _).
  exists err. exact Hr.
Defined.

Lemma GetLatestValue_no_hash_witness :
  Demo.read (Demo.poller None [Demo.log_10_2]) (Demo.binding true ["from"]) [] []
  = (Demo.poller None [Demo.log_10_2], Panics IndexOutOfRange).
Proof.
  apply (GetLatestValue_no_hash (texts := Demo.texts) (codec := Demo.codec)
           (modifier := Demo.modifier) (package := Demo.package));
    [reflexivity | simpl; lia | reflexivity].
Defined.

(** ** Encoding of the parameters *)

Section EncodeStatements.

Context {texts : SentinelTexts} {V : Type} {encoding : TopicEncoding V}.

(** X19: only arrays, slices, structs and maps can be encoded, whether given
    directly or behind pointers.  For a value of any other kind, and for a
    nil pointer (whose kind is invalid), [encodeParams] returns no hashes
    and an error wrapping [ErrInvalidType] that names the kind; and a
    pointer is encoded as the value it points to. *)
Theorem encodeParams_kinds (e : eventBinding) (item : Value V) :
  (forall k, (indirectAll item).1 = k ->
     k <> Array -> k <> Slice -> k <> Struct -> k <> Map ->
     encodeParamsOf e item =
       ([], Some (ErrorfW ErrInvalidType ("cannot encode kind " +:+ Kind_String k))) /\
     Error_ (ErrorfW ErrInvalidType ("cannot encode kind " +:+ Kind_String k)) =
       sentinelText ErrInvalidType +:+ ": cannot encode kind " +:+ Kind_String k) /\
  encodeParamsOf e (PointerTo item) = encodeParamsOf e item /\
  encodeParamsOf e (PointerTo (PointerTo item)) = encodeParamsOf e item.
Proof.
  split; [|done].
  intros k Hk HA HS HT HM. split; [|done].
  unfold encodeParamsOf, topicsOf.
  destruct (indirectAll item) as [k' ov]. simpl in Hk. subst k'.
  by destruct k, ov.
Qed.

(** X20: what [encodeParams] returns.  It returns hashes without an error
    exactly when the topics could be collected and [abi.MakeTopics] answered
    with one set of hashes, which is then the result; whenever it returns an
    error it returns no hashes.  An error of [abi.MakeTopics] comes back
    wrapped together with [ErrNotFound] or [ErrInternal], and an answer with
    a number of sets other than one gives an error wrapping [ErrInternal]
    that states the number. *)
Theorem encodeParams_result (e : eventBinding) (item : Value V) :
  (forall set, encodeParamsOf e item = (set, None) <->
     exists topics, topicsOf e item = (topics, None) /\
                    MakeTopics topics = ([set], None)) /\
  (forall err, (encodeParamsOf e item).2 = Some err ->
     (encodeParamsOf e item).1 = []) /\
  (forall topics err,
     topicsOf e item = (topics, None) -> (MakeTopics topics).2 = Some err ->
     encodeParamsOf e item = ([], wrapInternalErr (Some err))) /\
  (forall topics sets,
     topicsOf e item = (topics, None) -> MakeTopics topics = (sets, None) ->
     length sets <> 1 ->
     encodeParamsOf e item =
       ([], Some (ErrorfW ErrInternal
                    ("expected 1 filter set, got " +:+ pretty (length sets))))).
Proof.
  unfold encodeParamsOf. split_and!.
  - intros set. destruct (topicsOf e item) as [topics [terr|]].
    { split; [done | by intros (? & [=] & _)]. }
    destruct (MakeTopics topics) as [hashes [merr|]] eqn:HM.
    { split; [simpl; by destruct (_ || _) | intros (? & [= <-] & HM')].
      rewrite HM in HM'. done. }
    case_bool_decide as Hlen.
    { split; [done | intros (? & [= <-] & HM')].
      rewrite HM in HM'. injection HM' as ->. done. }
    destruct hashes as [|set' [|? ?]]; simpl in Hlen; try (exfalso; lia).
    split.
    + intros [= <-]. exists topics. by rewrite HM.
    + intros (? & [= <-] & HM'). rewrite HM in HM'. by injection HM' as ->.
  - destruct (topicsOf e item) as [topics [terr|]]; [done|].
    destruct (MakeTopics topics) as [hashes [merr|]]; [done|].
    case_bool_decide; [done|]. by destruct hashes.
  - intros topics err -> HM.
    destruct (MakeTopics topics) as [hashes [merr|]]; simpl in HM; [|done].
    by injection HM as ->.
  - intros topics sets -> -> Hlen. by rewrite bool_decide_eq_true_2.
Qed.

End EncodeStatements.

Lemma encodeParams_kinds_witness :
  encodeParamsOf (texts := Demo.texts)
    (encoding := {| representArray v _ := (v, None);
                    unrollItem v _ := ([v], None);
                    MakeTopics topics := ([topics], None) |})
    (Demo.binding true ["from"]) (PointerTo (Plain String_ Demo.first))
  = ([], Some (ErrorfW ErrInvalidType "cannot encode kind string")).
Proof.
  destruct (encodeParams_kinds (texts := Demo.texts)
              (encoding := {| representArray v _ := (v, None);
                              unrollItem v _ := ([v], None);
                              MakeTopics topics := ([topics], None) |})
              (Demo.binding true ["from"])
              (PointerTo (Plain String_ Demo.first))) as [Hkind _].
  destruct (Hkind String_ eq_refl) as [Hr _]; [discriminate.. | exact Hr].
Defined.

Lemma encodeParams_result_witness :
  encodeParamsOf (texts := Demo.texts)
    (encoding := {| representArray v _ := (v, None);
                    unrollItem v _ := ([v; Demo.second], None);
                    MakeTopics topics := ([topics], None) |})
    (Demo.binding true ["from"; "to"]) (PointerTo (Plain Struct Demo.first))
  = ([Demo.first; Demo.second], None) /\
  encodeParamsOf (texts := Demo.texts)
    (encoding := {| representArray v _ := (v, None);
                    unrollItem v _ := ([v], None);
                    MakeTopics topics := ([], None) |})
    (Demo.binding true ["from"]) (Plain Map Demo.first)
  = ([], Some (ErrorfW ErrInternal "expected 1 filter set, got 0")).
Proof.
  split.
  - apply (encodeParams_result (texts := Demo.texts)
             (encoding := {| representArray v _ := (v, None);
                             unrollItem v _ := ([v; Demo.second], None);
                             MakeTopics topics := ([topics], None) |})
             (Demo.binding true ["from"; "to"])
             (PointerTo (Plain Struct Demo.first))).
    exists [Demo.first; Demo.second]. split; reflexivity.
  - destruct (encodeParams_result (texts := Demo.texts)
                (encoding := {| representArray v _ := (v, None);
                                unrollItem v _ := ([v], None);
                                MakeTopics topics := ([], None) |})
                (Demo.binding true ["from"]) (Plain Map Demo.first))
      as (_ & _ & _ & Hcount).
    apply (Hcount [Demo.first] []); [reflexivity | reflexivity | simpl; lia].
Defined.

(** * The test accounts *)

Lemma bumpAt_ok (account : list Byte.byte) (idx : Z) (a b : Byte.byte) :
  (0 <= idx)%Z -> account !! Z.to_nat idx = Some a ->
  bumpAt account idx b = Returns (<[Z.to_nat idx := addByte a b]> account).
Proof.
  intros Hi Ha. unfold bumpAt. rewrite bool_decide_eq_true_2 by done.
  by rewrite Ha.
Qed.

Lemma bumpAt_negative (account : list Byte.byte) (idx : Z) (b : Byte.byte) :
  (idx < 0)%Z -> bumpAt account idx b = Panics IndexOutOfRange.
Proof.
  intros Hi. unfold bumpAt. by rewrite bool_decide_eq_false_2 by lia.
Qed.

Lemma bumpAt_in_range (account : list Byte.byte) (idx : Z) (b : Byte.byte) :
  (0 <= idx < 20)%Z -> length account = 20 ->
  exists a, account !! Z.to_nat idx = Some a /\
    bumpAt account idx b = Returns (<[Z.to_nat idx := addByte a b]> account).
Proof.
  intros Hi Hlen.
  destruct (lookup_lt_is_Some_2 account (Z.to_nat idx) ltac:(lia)) as [a Ha].
  exists a. split; [done|]. apply bumpAt_ok; [lia | done].
Qed.

Lemma rem_negative (v : Z) :
  (v < 0)%Z -> (Z.rem v 20 = 0)%Z \/ (Z.rem v 20 < 0)%Z.
Proof.
  intros Hv. pose proof (Z.rem_nonpos v 20 ltac:(lia) ltac:(lia)). lia.
Qed.

Lemma int64_wraps (z : Z) :
  (2 ^ 63 <= z < 2 ^ 64)%Z -> int64 z = (z - 2 ^ 64)%Z.
Proof.
  intros Hz. unfold int64.
  replace (z + 2 ^ 63)%Z with ((z - 2 ^ 63) + 1 * 2 ^ 64)%Z by lia.
  rewrite Z_mod_plus_full, Z.mod_small by lia. lia.
Qed.

(** X21: [GetAccountBytes] returns for the indices from 0 to the greatest
    [int] less 3, and for no other: a negative index, and an index whose
    successor [i + 3] wraps around, ends in an index out of range.  The
    account returned has 20 bytes and differs from the base account at most
    at the positions [i % 20] and [(i + 3) % 20]. *)
Theorem GetAccountBytes_returns_iff (i : Z) :
  is_int64 i ->
  ((0 <= i <= 2 ^ 63 - 4)%Z ->
   exists account, GetAccountBytes i = Returns account /\
     length account = 20 /\
     forall k, k <> Z.to_nat (i mod 20) -> k <> Z.to_nat ((i + 3) mod 20) ->
               account !! k = baseAccount !! k) /\
  (~ (0 <= i <= 2 ^ 63 - 4)%Z -> GetAccountBytes i = Panics IndexOutOfRange).
Proof.
  unfold is_int64. intros Hi. split.
  - intros Hr. unfold GetAccountBytes.
    rewrite int64_small by (unfold is_int64; lia).
    rewrite !Z.rem_mod_nonneg by lia.
    pose proof (Z.mod_pos_bound i 20 ltac:(lia)) as H1.
    pose proof (Z.mod_pos_bound (i + 3) 20 ltac:(lia)) as H2.
    destruct (bumpAt_in_range baseAccount (i mod 20) (toByte i) H1 eq_refl)
      as (a1 & _ & ->).
    destruct (bumpAt_in_range (<[Z.to_nat (i mod 20) := addByte a1 (toByte i)]>
                                 baseAccount)
                ((i + 3) mod 20) (toByte (i + 3)) H2
                ltac:(by rewrite length_insert))
      as (a2 & _ & ->).
    eexists. split; [done|]. split; [by rewrite !length_insert|].
    intros k Hk1 Hk2. by rewrite !list_lookup_insert_ne by done.
  - intros Hr. unfold GetAccountBytes.
    destruct (decide (i < 0)%Z) as [Hneg | Hpos].
    + pose proof (Z.quot_rem' i 20) as Hq.
      destruct (rem_negative i Hneg) as [H0 | Hlt].
      * rewrite H0. simpl.
        rewrite int64_small by (unfold is_int64; lia).
        pose proof (Z.quot_rem' (i + 3) 20) as Hq2.
        destruct (rem_negative (i + 3) ltac:(lia)) as [H0' | Hlt'];
          [exfalso; lia|].
        by rewrite bumpAt_negative.
      * by rewrite bumpAt_negative.
    + rewrite Z.rem_mod_nonneg by lia.
      pose proof (Z.mod_pos_bound i 20 ltac:(lia)) as H1.
      destruct (bumpAt_in_range baseAccount (i mod 20) (toByte i) H1 eq_refl)
        as (a1 & _ & ->).
      rewrite int64_wraps by lia.
      pose proof (Z.quot_rem' (i + 3 - 2 ^ 64) 20) as Hq2.
      destruct (rem_negative (i + 3 - 2 ^ 64) ltac:(lia)) as [H0' | Hlt'];
        [exfalso; lia|].
      by rewrite bumpAt_negative.
Qed.

Lemma GetAccountBytes_returns_iff_witness :
  (exists account, GetAccountBytes 253 = Returns account /\ length account = 20) /\
  GetAccountBytes (-20) = Panics IndexOutOfRange.
Proof.
  split.
  - destruct (GetAccountBytes_returns_iff 253 ltac:(unfold is_int64; lia))
      as [Hok _].
    destruct (Hok ltac:(lia)) as (account & Hr & Hlen & _).
    exists account. split; [exact Hr | exact Hlen].
  - apply (GetAccountBytes_returns_iff (-20)); [unfold is_int64; lia | lia].
Defined.

Lemma strictlyIncreasing_bound (l : list Z) (x : Z) :
  strictlyIncreasing (x :: l) = true -> Forall (fun y => (x < y)%Z) l.
Proof.
  revert x. induction l as [|y l IH]; intros x; [by constructor|].
  cbn [strictlyIncreasing]. rewrite andb_true_iff, bool_decide_eq_true.
  intros [Hxy Hrest]. constructor; [done|].
  eapply Forall_impl; [apply (IH y Hrest)|]. simpl. lia.
Qed.

Lemma strictlyIncreasing_NoDup (l : list Z) :
  strictlyIncreasing l = true -> NoDup l.
Proof.
  induction l as [|x l IH]; intros H; [constructor|].
  pose proof (strictlyIncreasing_bound l x H) as Hb.
  constructor.
  - intros Hin. rewrite Forall_forall in Hb. specialize (Hb x Hin). lia.
  - apply IH. destruct l as [|y l]; [done|].
    cbn [strictlyIncreasing] in H. by apply andb_true_iff in H as [_ H].
Qed.

(** The 1280 accounts of the table are pairwise different: read as numbers
    and sorted, they increase strictly. *)
Lemma accountTable_NoDup : NoDup accountTable.
Proof.
  apply (NoDup_fmap_1 accountKey).
  rewrite <- (merge_sort_Permutation Z.le).
  apply strictlyIncreasing_NoDup. vm_compute. reflexivity.
Qed.

Lemma accountTable_lookup (r : Z) :
  (0 <= r < 1280)%Z -> accountTable !! Z.to_nat r = Some (GetAccountBytes r).
Proof.
  intros Hr. unfold accountTable.
  rewrite list_lookup_fmap, lookup_seq_lt by lia. simpl.
  by rewrite Z2Nat.id by lia.
Qed.

Lemma mod_20_of_mod_1280 (i c : Z) : ((i mod 1280 + c) mod 20 = (i + c) mod 20)%Z.
Proof.
  rewrite (Z.div_mod i 1280) at 2 by lia.
  replace (1280 * (i / 1280) + i mod 1280 + c)%Z
    with (i mod 1280 + c + (64 * (i / 1280)) * 20)%Z by lia.
  by rewrite Z_mod_plus_full.
Qed.

Lemma mod_256_of_mod_1280 (i c : Z) :
  ((i mod 1280 + c) mod 256 = (i + c) mod 256)%Z.
Proof.
  rewrite (Z.div_mod i 1280) at 2 by lia.
  replace (1280 * (i / 1280) + i mod 1280 + c)%Z
    with (i mod 1280 + c + (5 * (i / 1280)) * 256)%Z by lia.
  by rewrite Z_mod_plus_full.
Qed.

Lemma GetAccountBytes_mod (i : Z) :
  (0 <= i <= 2 ^ 63 - 4)%Z -> GetAccountBytes i = GetAccountBytes (i mod 1280).
Proof.
  intros Hi. pose proof (Z.mod_pos_bound i 1280 ltac:(lia)) as Hr.
  unfold GetAccountBytes.
  rewrite !int64_small by (unfold is_int64; lia).
  rewrite !Z.rem_mod_nonneg by lia.
  pose proof (mod_20_of_mod_1280 i 0) as H20. rewrite !Z.add_0_r in H20.
  pose proof (mod_256_of_mod_1280 i 0) as H256. rewrite !Z.add_0_r in H256.
  unfold toByte.
  by rewrite H20, H256, (mod_20_of_mod_1280 i 3), (mod_256_of_mod_1280 i 3).
Qed.

(** X22: the accounts of two indices for which [GetAccountBytes] returns are
    the same exactly when the indices differ by a multiple of 1280; in
    particular indices less than 1280 apart give different accounts. *)
Theorem GetAccountBytes_equal_iff (i j : Z) :
  (0 <= i <= 2 ^ 63 - 4)%Z -> (0 <= j <= 2 ^ 63 - 4)%Z ->
  (GetAccountBytes i = GetAccountBytes j <-> (i mod 1280 = j mod 1280)%Z).
Proof.
  intros Hi Hj.
  pose proof (Z.mod_pos_bound i 1280 ltac:(lia)) as Hri.
  pose proof (Z.mod_pos_bound j 1280 ltac:(lia)) as Hrj.
  rewrite (GetAccountBytes_mod i Hi), (GetAccountBytes_mod j Hj). split.
  - intros Heq.
    pose proof (accountTable_lookup (i mod 1280) Hri) as Li.
    pose proof (accountTable_lookup (j mod 1280) Hrj) as Lj.
    rewrite <- Heq in Lj.
    pose proof (NoDup_lookup _ _ _ _ accountTable_NoDup Li Lj). lia.
  - by intros ->.
Qed.

Lemma GetAccountBytes_equal_iff_witness :
  GetAccountBytes 1283 = GetAccountBytes 3 /\
  GetAccountBytes 3 <> GetAccountBytes 23.
Proof.
  split.
  - apply (GetAccountBytes_equal_iff 1283 3); [lia | lia | reflexivity].
  - intros Heq.
    apply (GetAccountBytes_equal_iff 3 23) in Heq; [|lia|lia].
    discriminate Heq.
Defined.

(** * Further properties across functions *)

Lemma matchesFrom_ext (filters : list Hash) (topics topics' : list bytes) :
  forall i,
  (forall j, j < length filters -> topics !! (i + j + 2) = topics' !! (i + j + 2)) ->
  matchesFrom i topics filters = matchesFrom i topics' filters.
Proof.
  induction filters as [|f rest IH]; intros i Hsame; simpl; [done|].
  pose proof (Hsame 0 ltac:(simpl; lia)) as H0. rewrite Nat.add_0_r in H0.
  rewrite <- H0. destruct (topics !! (i + 2)) as [t|]; [|done].
  case_bool_decide; [|done]. apply IH. intros j Hj.
  replace (S i + j + 2) with (i + S j + 2) by lia. apply Hsame. simpl. lia.
Qed.

(** X23: narrowing looks at the slots 2 to k+1 of a log and at nothing else.
    Two logs whose topics agree in these slots fare the same under
    [matchesRemainingFilters], whatever their signature topic, their topic
    in slot 1, their topics beyond slot k+1, their data and their place in
    the chain: the signature and the first indexed topic are left to the
    poller. *)
Theorem matchesRemainingFilters_slots (log log' : Log) (filters : list Hash) :
  (forall j, j < length filters -> Topics log !! (j + 2) = Topics log' !! (j + 2)) ->
  matchesRemainingFilters log filters = matchesRemainingFilters log' filters.
Proof.
  intros Hsame. unfold matchesRemainingFilters. apply matchesFrom_ext.
  intros j Hj. by apply Hsame.
Qed.

Lemma matchesRemainingFilters_slots_witness :
  matchesRemainingFilters
    (mkLog 1 1 [Demo.other; Demo.other; Demo.second; Demo.third] [])
    [Demo.second]
  = matchesRemainingFilters Demo.log_10_2 [Demo.second].
Proof.
  apply (matchesRemainingFilters_slots
           (mkLog 1 1 [Demo.other; Demo.other; Demo.second; Demo.third] [])
           Demo.log_10_2 [Demo.second]).
  intros j Hj. simpl in Hj. destruct j as [|j]; [reflexivity | lia].
Defined.

Section BindStatements.

Context {texts : SentinelTexts} {parser : AddressParser} {V : Type}
  {codec : RemoteCodec V} {modifier : Modifier V} {package : Package V}.

Lemma rebound_twice (e : eventBinding) (a : Address) (p : bool) :
  rebound (rebound e a p) a p = rebound e a p.
Proof. done. Qed.

(** X24: with a poller that does not fail, binding twice to the same
    contract is binding once: the second [Bind] returns no error and leaves
    the binding and the filters as the first left them. *)
Theorem Bind_idempotent (lp : LogPoller) (e : eventBinding) (b : BoundContract) :
  lpFaults lp = [] ->
  (Bind lp e b).2 = None /\
  (Bind (Bind lp e b).1.1 (Bind lp e b).1.2 b).2 = None /\
  (Bind (Bind lp e b).1.1 (Bind lp e b).1.2 b).1.2 = (Bind lp e b).1.2 /\
  lpFilters (Bind (Bind lp e b).1.1 (Bind lp e b).1.2 b).1.1
    = lpFilters (Bind lp e b).1.1.
Proof.
  intros Hf.
  destruct (Bind_no_faults lp e b Hf) as (Hok & Hf1 & He1 & Hm1).
  destruct (Bind_no_faults (Bind lp e b).1.1 (Bind lp e b).1.2 b Hf1)
    as (Hok2 & _ & He2 & Hm2).
  split; [done|]. split; [done|].
  rewrite He2, Hm2, He1, Hm1.
  destruct (registerCalled e) eqn:Hl; simpl; rewrite ?Hl; simpl.
  - split; [done|]. apply insert_insert_eq.
  - split; [done|]. by rewrite delete_delete_eq.
Qed.

(** X25: reads follow the last [Bind].  When the [Unregister] inside [Bind]
    did not fail, a read of the binding without input arguments that comes
    after asks the poller for the latest log at the newly bound address,
    under the confirmation policy of the new pending flag, also when the
    registration inside [Bind] failed and [Bind] returned its error. *)
Theorem read_after_Bind (lp : LogPoller) (e : eventBinding) (b : BoundContract)
    (params into : V) :
  (Unregister lp e).2 = None -> length (Args (inputInfo e)) = 0 ->
  lpCalls (GetLatestValue (Bind lp e b).1.1 (Bind lp e b).1.2 params into).1 =
    lpCalls (Bind lp e b).1.1 ++
    [CallLatestLogByEventSigWithConfs (hash e) (HexToAddress (bcAddress b))
       (if bcPending b then Unconfirmed else Finalized)].
Proof.
  intros Hok Hn. rewrite Bind_unfold, Hok. cbv zeta.
  set (e1 := rebound e (HexToAddress (bcAddress b)) (bcPending b)).
  assert (He : (if registerCalled e then Register (Unregister lp e).1.1 e1
                else ((Unregister lp e).1.1, e1, None)).1.2
               = if registerCalled e then markRegisterCalled e1 else e1).
  { destruct (registerCalled e); [apply Register_binding | done]. }
  rewrite He.
  destruct (registerCalled e);
    rewrite GetLatestValue_unfiltered by done; done.
Qed.

End BindStatements.

Lemma Bind_idempotent_witness :
  let once := Bind (parser := Demo.parser) (Demo.poller None []) Demo.twin
                (mkBoundContract "0x01" "Feed" true) in
  (Bind (parser := Demo.parser) once.1.1 once.1.2
     (mkBoundContract "0x01" "Feed" true)).1.2 = once.1.2 /\
  lpFilters (Bind (parser := Demo.parser) once.1.1 once.1.2
               (mkBoundContract "0x01" "Feed" true)).1.1 = lpFilters once.1.1.
Proof.
  intros once.
  destruct (Bind_idempotent (parser := Demo.parser) (Demo.poller None [])
              Demo.twin (mkBoundContract "0x01" "Feed" true) eq_refl)
    as (_ & _ & He & Hm).
  split; [exact He | exact Hm].
Defined.

Lemma read_after_Bind_witness :
  let lp :=
    mkLogPoller ∅ [Some (ErrorNew "database is down")]
      (fun _ _ _ => (None, Some (ErrorNew "sql: no rows in result set")))
      (fun _ _ _ _ _ => ([], None)) [] in
  let e := markRegisterCalled (Demo.binding false []) in
  let bound := Bind (parser := Demo.parser) lp e
                 (mkBoundContract "0x01" "Feed" true) in
  bound.2 = Some (ErrorfWW ErrInternal (ErrorNew "database is down")) /\
  lpCalls (Demo.read bound.1.1 bound.1.2 [] []).1
  = lpCalls bound.1.1 ++
    [CallLatestLogByEventSigWithConfs Demo.sigHash (repeat x01 20) Unconfirmed].
Proof.
  intros lp e bound. split; [reflexivity|].
  apply (read_after_Bind (texts := Demo.texts) (parser := Demo.parser)
           (codec := Demo.codec) (modifier := Demo.modifier)
           (package := Demo.package) lp e
           (mkBoundContract "0x01" "Feed" true) [] []); reflexivity.
Defined.

Lemma run_evolves_witness :
  let s := run (parser := Demo.parser)
             [OpRegister; OpBind (mkBoundContract "0x01" "Feed" true);
              OpUnregister; OpUnregister]
             (Demo.poller None [], Demo.binding false ["from"]) in
  id s.2 = "binding-1" /\ registerCalled s.2 = true /\ bound s.2 = true.
Proof.
  intros s.
  destruct (run_evolves (parser := Demo.parser) [OpUnregister; OpUnregister]
              (run (parser := Demo.parser)
                 [OpRegister; OpBind (mkBoundContract "0x01" "Feed" true)]
                 (Demo.poller None [], Demo.binding false ["from"])))
    as (Hid & _ & _ & _ & _ & _ & Hlatch & Hbound).
  split_and!; [exact Hid | exact (Hlatch eq_refl) | exact (Hbound eq_refl)].
Defined.
